(** * DAG dependencies and remote iteration: a verification development

  The Python notebooks [Part-4/examples/DAG Dependencies.ipynb] and
  [Part-4/exercises/Remote Iteration.ipynb] are embedded shallowly:
  Python integers are [Z], dictionaries are [gmap], lists are [list],
  a raised exception is a constructor of an error type, and a [while]
  loop is a fixpoint on a fuel argument. *)

From stdpp Require Import gmap strings list fin_maps relations sorting.

Local Open Scope Z_scope.

(** ** Python builtins used by the notebooks *)

Module Py.

(** Number of items of [range(start, stop, step)] for a non-zero step. *)
Definition range_len (start stop step : Z) : Z :=
  if 0 <? step then
    if start <? stop then (stop - start - 1) / step + 1 else 0
  else if step <? 0 then
    if stop <? start then (start - stop - 1) / (- step) + 1 else 0
  else 0.

(** [range(start, stop, step)]; [None] is the [ValueError] raised for a
    zero step. *)
Definition range (start stop step : Z) : option (list Z) :=
  if step =? 0 then None
  else Some (map (λ i : nat, start + Z.of_nat i * step)
                 (seq 0 (Z.to_nat (range_len start stop step)))).

(** [range(n)] *)
Definition range1 (n : Z) : list Z :=
  Z.of_nat <$> seq 0 (Z.to_nat n).

(** The exceptions the modelled code can raise. *)
Inductive exn :=
| KeyError (key : Z)
| TypeError
| ValueError
| AssertionError (node parent : Z)
| NetworkXError
| NetworkXUnfeasible.

#[global] Instance exn_eq_dec : EqDecision exn.
Proof. solve_decision. Defined.

End Py.

(** ** Remote Iteration: [load_data] *)

Module RemoteIteration.

(** The engine's global namespace maps a variable name to a dataset;
    [load_data] binds the global [data] and returns its name. *)
Definition load_data (arg : Z) (globals : gmap string (list Z))
  : option (string * gmap string (list Z)) :=
  let s := 4 - arg in
  let step := arg + 1 in
  data ← Py.range s (s + 4 * step ^ 2) step;
  Some ("data"%string, <["data"%string := data]> globals).

End RemoteIteration.

(** ** The directed graphs of the notebook *)

Abbreviation node := Z (only parsing).

Module nx.

(** Modelled from the spec: the Graph Store of section 4.1, which the
    notebook takes from the NetworkX library ([nx.DiGraph]) and which is
    not under src/.  Nodes are kept in insertion order; an edge
    [(a, b)] means that [b] depends on [a]; an edge is held at most
    once, and adding an edge adds its endpoints. *)
Record DiGraph := { nodes : list node; edges : list (node * node) }.

(** Modelled from the spec: [nx.DiGraph()], the graph with no node. *)
Definition empty : DiGraph := {| nodes := []; edges := [] |}.

(** Modelled from the spec: [G.add_node(n)] of NetworkX (not under
    src/); adding a node that is present changes nothing. *)
Definition add_node (n : node) (G : DiGraph) : DiGraph :=
  if decide (n ∈ nodes G) then G
  else {| nodes := nodes G ++ [n]; edges := edges G |}.

(** Modelled from the spec: [G.add_edge(a, b)] of NetworkX (not under
    src/); the endpoints are added when absent, and adding an edge that
    is present changes nothing. *)
Definition add_edge (a b : node) (G : DiGraph) : DiGraph :=
  let G1 := add_node b (add_node a G) in
  if decide ((a, b) ∈ edges G1) then G1
  else {| nodes := nodes G1; edges := edges G1 ++ [(a, b)] |}.

(** Modelled from the spec: [G.remove_edge(a, b)] of NetworkX (not
    under src/); [None] is the [NetworkXError] raised for an absent
    edge. *)
Definition remove_edge (a b : node) (G : DiGraph) : option DiGraph :=
  if decide ((a, b) ∈ edges G)
  then Some {| nodes := nodes G;
               edges := filter (λ e, e ≠ (a, b)) (edges G) |}
  else None.

(** Modelled from the spec: [predecessorsOf(id)] of section 4.1,
    [G.predecessors(n)] of NetworkX: the direct dependencies of [n]. *)
Definition predecessors (G : DiGraph) (n : node) : list node :=
  (filter (λ e : node * node, e.2 = n) (edges G)).*1.

(** Modelled from the spec: [successorsOf(id)] of section 4.1: the
    direct dependents of [n]. *)
Definition successors (G : DiGraph) (n : node) : list node :=
  (filter (λ e : node * node, e.1 = n) (edges G)).*2.

Definition number_of_nodes (G : DiGraph) : nat := length (nodes G).
Definition number_of_edges (G : DiGraph) : nat := length (edges G).

(** The dependency relation and what the graph promises about it. *)
Definition edge (G : DiGraph) (a b : node) : Prop := (a, b) ∈ edges G.

Definition acyclic (G : DiGraph) : Prop := ∀ n, ¬ tc (edge G) n n.

(** Every endpoint of an edge is a node, and nothing is held twice;
    every graph built from [empty] by the operations above is so. *)
Record wf (G : DiGraph) : Prop := {
  wf_nodes : NoDup (nodes G);
  wf_edges : NoDup (edges G);
  wf_src : ∀ a b, (a, b) ∈ edges G → a ∈ nodes G;
  wf_dst : ∀ a b, (a, b) ∈ edges G → b ∈ nodes G;
}.

End nx.

(** ** DAG Dependencies: [validate_tree] *)

Module Validate.

(** [results[node].metadata]: the timestamps of a task, [None] until
    the task reaches that point. *)
Record Metadata := { started : option Z; completed : option Z }.

(** What [validate_tree] can see: the graph and the results dict. *)
Record World := { graph : nx.DiGraph; results : gmap node Metadata }.

(** Computations over the world that may raise. *)
Definition M (A : Type) : Type := World → (Py.exn + A) * World.

#[global] Instance M_ret : MRet M := λ A x w, (inr x, w).
#[global] Instance M_bind : MBind M := λ A B f m w,
  match m w with
  | (inl e, w') => (inl e, w')
  | (inr x, w') => f x w'
  end.

Definition raise {A} (e : Py.exn) : M A := λ w, (inl e, w).

(** [for node in G] *)
Definition iter_nodes : M (list node) := λ w, (inr (nx.nodes (graph w)), w).

(** [G.predecessors(node)] *)
Definition get_predecessors (n : node) : M (list node) :=
  λ w, (inr (nx.predecessors (graph w) n), w).

(** [results[node].metadata] *)
Definition get_metadata (n : node) : M Metadata := λ w,
  match results w !! n with
  | Some md => (inr md, w)
  | None => (inl (Py.KeyError n), w)
  end.

(** [assert started > finished, ...]; comparing [None] with a
    timestamp raises [TypeError]. *)
Definition assert_after (started finished : option Z) (n parent : node)
  : M unit :=
  match started, finished with
  | Some s, Some f =>
      if f <? s then mret () else raise (Py.AssertionError n parent)
  | _, _ => raise Py.TypeError
  end.

Fixpoint for_each {X} (l : list X) (body : X → M unit) : M unit :=
  match l with
  | [] => mret ()
  | x :: l' => body x ≫= λ _, for_each l' body
  end.

(** Body of the inner loop: [finished = results[parent].metadata.completed]
    and the assertion. *)
Definition check_parent (started : option Z) (n parent : node) : M unit :=
  pmd ← get_metadata parent;
  let finished := completed pmd in
  assert_after started finished n parent.

(** Body of the outer loop. *)
Definition check_node (n : node) : M unit :=
  md ← get_metadata n;
  let started := started md in
  parents ← get_predecessors n;
  for_each parents (check_parent started n).

Definition validate_tree : M unit :=
  ns ← iter_nodes;
  for_each ns check_node.

(** Every node of the graph, and every predecessor of one, has a result
    with both timestamps recorded. *)
Definition fully_recorded (w : World) : Prop :=
  ∀ n, (n ∈ nx.nodes (graph w)
        ∨ ∃ c, c ∈ nx.nodes (graph w) ∧ n ∈ nx.predecessors (graph w) c) →
       ∃ s f, results w !! n = Some {| started := Some s; completed := Some f |}.

(** Every comparison that [validate_tree] makes is between two recorded
    timestamps: every node has a result and, for every node and each of
    its predecessors, the predecessor has a result, the start time of
    the node is recorded and so is the completion time of the
    predecessor. *)
Definition comparable (w : World) : Prop :=
  ∀ n, n ∈ nx.nodes (graph w) →
       ∃ mn, results w !! n = Some mn
             ∧ ∀ p, p ∈ nx.predecessors (graph w) n →
                    ∃ mp s f, results w !! p = Some mp
                              ∧ started mn = Some s ∧ completed mp = Some f.

(** Node [n] has a recorded start time that is not strictly after the
    recorded completion time of its predecessor [p]. *)
Definition starts_too_early (w : World) (n p : node) : Prop :=
  n ∈ nx.nodes (graph w) ∧ p ∈ nx.predecessors (graph w) n ∧
  ∃ mn mp s f, results w !! n = Some mn ∧ started mn = Some s ∧
               results w !! p = Some mp ∧ completed mp = Some f ∧
               ¬ (f < s).

End Validate.

(** ** The topological order used for submission *)

Module Sequencer.

(** Modelled from the spec: the Topological Sequencer of section 4.2
    (Kahn's algorithm), which the notebook takes from NetworkX
    ([nx.topological_sort], [nx.is_directed_acyclic_graph]) and which is
    not under src/.  In-degree counts are seeded from the graph; the
    first node in insertion order whose count is zero is taken, the
    counts of its successors are decremented, and the node is appended
    to the output. *)
Definition in_degrees (G : nx.DiGraph) : gmap node Z :=
  list_to_map
    ((λ n, (n, Z.of_nat (length (nx.predecessors G n)))) <$> nx.nodes G).

(** Modelled from the spec: "decrement successors' in-degree". *)
Definition decrement (indeg : gmap node Z) (s : node) : gmap node Z :=
  alter (λ d, d - 1) s indeg.

(** Modelled from the spec: the loop of Kahn's algorithm; [todo] holds
    the nodes not yet emitted, in insertion order, and [fuel] is their
    number. *)
Fixpoint kahn (fuel : nat) (G : nx.DiGraph) (indeg : gmap node Z)
    (todo out : list node) : list node :=
  match fuel with
  | O => out
  | S fuel' =>
      match list_find (λ n, indeg !! n = Some 0) todo with
      | None => out
      | Some (_, n) =>
          kahn fuel' G (foldl decrement indeg (nx.successors G n))
               (filter (λ m, m ≠ n) todo) (out ++ [n])
      end
  end.

(** Modelled from the spec: [sequence()] of section 4.2; [None] is the
    [CycleError] ([NetworkXUnfeasible]) raised when fewer nodes are
    emitted than exist. *)
Definition sequence (G : nx.DiGraph) : option (list node) :=
  let out :=
    kahn (length (nx.nodes G)) G (in_degrees G) (nx.nodes G) [] in
  if decide (length out < length (nx.nodes G))%nat then None else Some out.

(** Modelled from the spec: [nx.topological_sort(G)] (not under src/)
    is the sequencer. *)
Definition topological_sort := sequence.

(** Modelled from the spec: [nx.is_directed_acyclic_graph(G)] (not
    under src/).  NetworkX decides acyclicity by attempting the
    topological sort; [is_directed_acyclic_graph_spec] below shows that
    this is the absence of a cycle. *)
Definition is_directed_acyclic_graph (G : nx.DiGraph) : bool :=
  bool_decide (is_Some (topological_sort G)).

(** [a] comes before [b] in the sequence [l]. *)
Definition precedes (l : list node) (a b : node) : Prop :=
  ∃ i j : nat, l !! i = Some a ∧ l !! j = Some b ∧ (i < j)%nat.

(** Number of edges into [s] that leave a node of [todo]. *)
Definition pending_in (G : nx.DiGraph) (todo : list node) (s : node) : nat :=
  length (filter (λ e : node * node, e.2 = s ∧ e.1 ∈ todo) (nx.edges G)).

(** What the loop of [kahn] maintains. *)
Record kahn_inv (G : nx.DiGraph) (indeg : gmap node Z)
    (todo out : list node) : Prop := {
  ki_out : NoDup out;
  ki_todo : NoDup todo;
  ki_disj : ∀ n, n ∈ out → n ∉ todo;
  ki_all : ∀ n, n ∈ nx.nodes G ↔ n ∈ out ∨ n ∈ todo;
  ki_deg : ∀ s, s ∈ todo → indeg !! s = Some (Z.of_nat (pending_in G todo s));
  ki_ord : ∀ a b, nx.edge G a b → b ∈ out → precedes out a b;
}.

End Sequencer.

(** ** DAG Dependencies: the sample graph and [random_dag] *)

Module DagDeps.

(** The 5-node sample DAG, built as the notebook builds it.  Under
    Python 3 the [map(G.add_node, range(5))] of the notebook is lazy and
    adds nothing; the edges add the nodes. *)
Definition sample_dag : nx.DiGraph :=
  nx.add_edge 1 4 (nx.add_edge 2 3 (nx.add_edge 1 3
    (nx.add_edge 0 2 (nx.add_edge 0 1 nx.empty)))).

(** The same cell under Python 2, where [map] adds the five nodes
    first. *)
Definition sample_dag_eager : nx.DiGraph :=
  nx.add_edge 1 4 (nx.add_edge 2 3 (nx.add_edge 1 3
    (nx.add_edge 0 2 (nx.add_edge 0 1
      (foldl (λ G i, nx.add_node i G) nx.empty (Py.range1 5)))))).

(** A computation that may return, raise, or still be looping when the
    fuel is spent. *)
Inductive outcome (A : Type) :=
| Returns (x : A)
| Raises (e : Py.exn)
| OutOfFuel.
Arguments Returns {A} x.
Arguments Raises {A} e.
Arguments OutOfFuel {A}.

(** The random source is a stream of raw draws read at a position;
    [randint(lo, hi)] consumes one draw and returns an integer of
    [lo..hi], or raises [ValueError] when that range is empty. *)
Definition randint (lo hi : Z) (rng : nat → Z) (pos : nat)
  : option (Z * nat) :=
  if decide (hi < lo) then None
  else Some (lo + rng pos `mod` (hi - lo + 1), S pos).

(** [while b == a: b = randint(0, nodes-1)] *)
Fixpoint redraw (fuel : nat) (nodes : Z) (rng : nat → Z) (a b : Z)
    (pos : nat) : outcome (Z * nat) :=
  if decide (b = a) then
    match fuel with
    | O => OutOfFuel
    | S fuel' =>
        match randint 0 (nodes - 1) rng pos with
        | None => Raises Py.ValueError
        | Some (b', pos') => redraw fuel' nodes rng a b' pos'
        end
    end
  else Returns (b, pos).

(** The variables the outer loop of [random_dag] updates. *)
Record LoopState := {
  graph : nx.DiGraph;
  edges_left : Z;
  rng_pos : nat;
}.

(** One iteration of [while edges > 0]. *)
Definition loop_body (fuel : nat) (nodes : Z) (rng : nat → Z)
    (st : LoopState) : outcome LoopState :=
  match randint 0 (nodes - 1) rng (rng_pos st) with
  | None => Raises Py.ValueError
  | Some (a, pos) =>
      match redraw fuel nodes rng a a pos with
      | Returns (b, pos') =>
          let G := nx.add_edge a b (graph st) in
          if Sequencer.is_directed_acyclic_graph G then
            Returns {| graph := G; edges_left := edges_left st - 1;
                       rng_pos := pos' |}
          else
            (* we closed a loop! *)
            match nx.remove_edge a b G with
            | Some G' =>
                Returns {| graph := G'; edges_left := edges_left st;
                           rng_pos := pos' |}
            | None => Raises Py.NetworkXError
            end
      | Raises e => Raises e
      | OutOfFuel => OutOfFuel
      end
  end.

Fixpoint random_dag_loop (fuel : nat) (nodes : Z) (rng : nat → Z)
    (st : LoopState) : outcome nx.DiGraph :=
  if decide (0 < edges_left st) then
    match fuel with
    | O => OutOfFuel
    | S fuel' =>
        match loop_body fuel' nodes rng st with
        | Returns st' => random_dag_loop fuel' nodes rng st'
        | Raises e => Raises e
        | OutOfFuel => OutOfFuel
        end
    end
  else Returns (graph st).

(** The state on entry to the loop: [nodes] isolated nodes. *)
Definition initial (nodes edges : Z) : LoopState :=
  {| graph := foldl (λ G i, nx.add_node i G) nx.empty (Py.range1 nodes);
     edges_left := edges;
     rng_pos := 0 |}.

Definition random_dag (fuel : nat) (rng : nat → Z) (nodes edges : Z)
  : outcome nx.DiGraph :=
  random_dag_loop fuel nodes rng (initial nodes edges).

(** The states the loop holds after zero or more iterations. *)
Inductive held (rng : nat → Z) (nodes edges : Z) : LoopState → Prop :=
| held_initial : held rng nodes edges (initial nodes edges)
| held_iteration fuel st st' :
    held rng nodes edges st →
    0 < edges_left st →
    loop_body fuel nodes rng st = Returns st' →
    held rng nodes edges st'.

(** What every iteration of the loop preserves. *)
Record loop_inv (nodes edges : Z) (st : LoopState) : Prop := {
  li_wf : nx.wf (graph st);
  li_acyclic : nx.acyclic (graph st);
  li_nodes : nx.nodes (graph st) = Py.range1 nodes;
  li_noself : ∀ a b, (a, b) ∈ nx.edges (graph st) → a ≠ b;
  li_count :
    Z.of_nat (nx.number_of_edges (graph st)) + edges_left st ≤ edges;
  li_left : 0 ≤ edges → 0 ≤ edges_left st;
}.

(** The handle that [view.apply_async] returns: the id of the submitted
    task and the ids of the tasks it was told to run after. *)
Record AsyncResult := { msg_id : nat; after : list nat }.

(** [[ results[n] for n in G.predecessors(node) ]] *)
Fixpoint lookup_all (results : gmap node AsyncResult) (ns : list node)
  : Py.exn + list AsyncResult :=
  match ns with
  | [] => inr []
  | n :: ns' =>
      match results !! n with
      | None => inl (Py.KeyError n)
      | Some r =>
          match lookup_all results ns' with
          | inl e => inl e
          | inr rs => inr (r :: rs)
          end
      end
  end.

(** The submission loop over the topological order; [next_id] is the id
    the view gives to the next task. *)
Fixpoint submit_loop (G : nx.DiGraph) (order : list node)
    (results : gmap node AsyncResult) (next_id : nat)
  : Py.exn + gmap node AsyncResult :=
  match order with
  | [] => inr results
  | n :: rest =>
      match lookup_all results (nx.predecessors G n) with
      | inl e => inl e
      | inr deps =>
          submit_loop G rest
            (<[n := {| msg_id := next_id; after := msg_id <$> deps |}]>
               results)
            (S next_id)
      end
  end.

Definition submit_all (G : nx.DiGraph) : Py.exn + gmap node AsyncResult :=
  match Sequencer.topological_sort G with
  | None => inl Py.NetworkXUnfeasible
  | Some order => submit_loop G order ∅ 0
  end.

(** Timestamps for a run of the sample graph. *)
Definition sample_world : Validate.World :=
  {| Validate.graph := sample_dag;
     Validate.results :=
       list_to_map
         [ (0, {| Validate.started := Some 0; Validate.completed := Some 3 |});
           (1, {| Validate.started := Some 4; Validate.completed := Some 6 |});
           (2, {| Validate.started := Some 4; Validate.completed := Some 9 |});
           (3, {| Validate.started := Some 10; Validate.completed := Some 12 |});
           (4, {| Validate.started := Some 7; Validate.completed := Some 8 |}) ]
  |}.

(** A stream that repeats the draws of a finite tape. *)
Definition tape (l : list Z) : nat → Z :=
  λ i, default 0 (l !! (i `mod` length l)%nat).

End DagDeps.

(** ** The scheduler that runs the graph *)

Module Scheduler.

(** Modelled from the spec: the Task State Tracker (section 4.3), the
    Dependency-Aware Dispatcher (4.4) and the Outcome Propagator (4.5),
    with the data model of section 3.  The notebook hands its tasks to
    the load-balanced view of ipyparallel, whose scheduler is not under
    src/. *)
Inductive TaskState :=
| Pending | Ready | Running | Succeeded | Failed | Unreachable.

#[global] Instance TaskState_eq_dec : EqDecision TaskState.
Proof. solve_decision. Defined.

#[global] Instance TaskState_inhabited : Inhabited TaskState :=
  populate Pending.

Inductive DependencyPolicy := ALL_SUCCESS | ANY_SUCCESS | ALL_DONE | ANY_DONE.

#[global] Instance DependencyPolicy_eq_dec : EqDecision DependencyPolicy.
Proof. solve_decision. Defined.

Definition is_terminal (s : TaskState) : bool :=
  match s with Succeeded | Failed | Unreachable => true | _ => false end.

Definition is_succeeded (s : TaskState) : bool :=
  match s with Succeeded => true | _ => false end.

Definition failed_or_unreachable (s : TaskState) : bool :=
  match s with Failed | Unreachable => true | _ => false end.

(** Modelled from the spec: the transitions of section 3,
    [Pending → Ready → Running → {Succeeded | Failed}], and
    [Unreachable] from [Pending] or [Ready]. *)
Definition allowed (from to : TaskState) : bool :=
  match from, to with
  | Pending, Ready | Ready, Running
  | Running, Succeeded | Running, Failed
  | Pending, Unreachable | Ready, Unreachable => true
  | _, _ => false
  end.

(** Modelled from the spec: [recordTransition(id, newState)] of section
    4.3; [None] is [InvalidTransitionError]. *)
Definition recordTransition (tr : gmap node TaskState) (id : node)
    (newState : TaskState) : option (gmap node TaskState) :=
  if allowed (tr !!! id) newState then Some (<[id := newState]> tr)
  else None.

(** Modelled from the spec: the rules of section 4.5 for a successor
    [s] that is still [Pending]; [None] leaves it [Pending].  Under
    [ALL_SUCCESS] a failed or unreachable [completedNode] makes [s]
    [Unreachable] at once, and [s] becomes [Ready] when all its
    dependencies have succeeded; under [ANY_SUCCESS] one succeeded
    dependency is enough; [ALL_DONE] and [ANY_DONE] read "reached any
    terminal state" for "succeeded" and, running regardless of the
    outcome (section 3), never make [s] [Unreachable]. *)
Definition decide_successor (G : nx.DiGraph)
    (policy : node → DependencyPolicy) (tr : gmap node TaskState)
    (completedNode s : node) : option TaskState :=
  let deps := nx.predecessors G s in
  match policy s with
  | ALL_SUCCESS =>
      if failed_or_unreachable (tr !!! completedNode) then Some Unreachable
      else if forallb (λ d, is_succeeded (tr !!! d)) deps then Some Ready
      else None
  | ANY_SUCCESS =>
      if existsb (λ d, is_succeeded (tr !!! d)) deps then Some Ready
      else None
  | ALL_DONE =>
      if forallb (λ d, is_terminal (tr !!! d)) deps then Some Ready
      else None
  | ANY_DONE =>
      if existsb (λ d, is_terminal (tr !!! d)) deps then Some Ready
      else None
  end.

(** Modelled from the spec: the inspection of one direct successor;
    only a successor that is still [Pending] is touched. *)
Definition resolve_one (G : nx.DiGraph) (policy : node → DependencyPolicy)
    (completedNode : node) (tr : gmap node TaskState) (s : node)
  : gmap node TaskState :=
  match tr !!! s with
  | Pending =>
      match decide_successor G policy tr completedNode s with
      | Some new => <[s := new]> tr
      | None => tr
      end
  | _ => tr
  end.

(** Modelled from the spec: [resolve(completedNode)] of section 4.5
    inspects every direct successor of [completedNode]. *)
Definition resolve (G : nx.DiGraph) (policy : node → DependencyPolicy)
    (completedNode : node) (tr : gmap node TaskState)
  : gmap node TaskState :=
  foldl (resolve_one G policy completedNode) tr
        (nx.successors G completedNode).

(** Modelled from the spec: the state of a run: the tracker, the
    [startedAt] and [completedAt] timestamps reported by the worker pool
    (section 6), and the clock they are read from. *)
Record State := {
  tracker : gmap node TaskState;
  startedAt : gmap node Z;
  completedAt : gmap node Z;
  now : Z;
}.

(** Modelled from the spec: what can happen during a run (sections 4.4
    and 5): time passes; a worker starts a submitted task; a task
    completes and the propagator runs for it; the propagator runs for a
    node that became [Unreachable], which carries unreachability across
    several hops. *)
Inductive event :=
| Tick (dt : Z)
| Start (n : node)
| Complete (n : node)
| Propagate (n : node).

(** Modelled from the spec: the state before the first event; a node
    with zero dependencies is immediately [Ready] (section 4.4). *)
Definition init (G : nx.DiGraph) : State :=
  {| tracker :=
       list_to_map
         ((λ n, (n, match nx.predecessors G n with
                    | [] => Ready
                    | _ => Pending
                    end)) <$> nx.nodes G);
     startedAt := ∅; completedAt := ∅; now := 0 |}.

(** Modelled from the spec: the reaction of the dispatcher to one
    event.  [jobFn n] tells whether the job of node [n] succeeds when it
    runs; the clock only moves forward; a task is submitted, and starts,
    only from [Ready] and only once every direct dependency has reached
    a terminal state (sections 4.4 and 5: for any edge (from, to), to is
    never submitted until from has reached a terminal state); it
    completes only from [Running], and a completion is followed by the
    propagator. *)
Definition step (G : nx.DiGraph) (policy : node → DependencyPolicy)
    (jobFn : node → bool) (st : State) (ev : event) : option State :=
  match ev with
  | Tick dt =>
      if decide (0 < dt)
      then Some {| tracker := tracker st; startedAt := startedAt st;
                   completedAt := completedAt st; now := now st + dt |}
      else None
  | Start n =>
      if forallb (λ d, is_terminal (tracker st !!! d)) (nx.predecessors G n)
      then
        tr ← recordTransition (tracker st) n Running;
        Some {| tracker := tr; startedAt := <[n := now st]> (startedAt st);
                completedAt := completedAt st; now := now st |}
      else None
  | Complete n =>
      tr ← recordTransition (tracker st) n
             (if jobFn n then Succeeded else Failed);
      Some {| tracker := resolve G policy n tr; startedAt := startedAt st;
              completedAt := <[n := now st]> (completedAt st);
              now := now st |}
  | Propagate n =>
      if decide (tracker st !!! n = Unreachable)
      then Some {| tracker := resolve G policy n (tracker st);
                   startedAt := startedAt st;
                   completedAt := completedAt st; now := now st |}
      else None
  end.

(** Modelled from the spec: [run(graph, jobFn)] along a given
    interleaving of events; [None] when an event cannot happen. *)
Fixpoint run_events (G : nx.DiGraph) (policy : node → DependencyPolicy)
    (jobFn : node → bool) (st : State) (evs : list event) : option State :=
  match evs with
  | [] => Some st
  | ev :: evs' =>
      st' ← step G policy jobFn st ev; run_events G policy jobFn st' evs'
  end.

Definition reachable (G : nx.DiGraph) (policy : node → DependencyPolicy)
    (jobFn : node → bool) (st : State) : Prop :=
  ∃ evs, run_events G policy jobFn (init G) evs = Some st.

(** Modelled from the spec: [allTerminal()] of section 4.3. *)
Definition allTerminal (G : nx.DiGraph) (st : State) : bool :=
  forallb (λ n, is_terminal (tracker st !!! n)) (nx.nodes G).

(** A run that has been driven to completion. *)
Definition completed_run (G : nx.DiGraph) (policy : node → DependencyPolicy)
    (jobFn : node → bool) (st : State) : Prop :=
  reachable G policy jobFn st ∧ allTerminal G st = true.

(** The job of node [f] fails and every other job succeeds. *)
Definition only_fails (f : node) (jobFn : node → bool) : Prop :=
  ∀ n, jobFn n = false ↔ n = f.

(** The default policy for every node. *)
Definition all_success : node → DependencyPolicy := λ _, ALL_SUCCESS.

(** The results dict that a run leaves for [validate_tree]. *)
Definition trace_results (G : nx.DiGraph) (st : State)
  : gmap node Validate.Metadata :=
  list_to_map
    ((λ n, (n, {| Validate.started := startedAt st !! n;
                  Validate.completed := completedAt st !! n |}))
       <$> nx.nodes G).

Definition trace_world (G : nx.DiGraph) (st : State) : Validate.World :=
  {| Validate.graph := G; Validate.results := trace_results G st |}.



(** A graph and a policy assignment that mix the two. *)
Definition mixed_dag : nx.DiGraph :=
  nx.add_edge 1 2 (nx.add_edge 0 1 (nx.add_edge 0 2 nx.empty)).

Definition mixed_policy : node → DependencyPolicy :=
  λ n, if decide (n = 2) then ALL_DONE else ALL_SUCCESS.

(** A graph whose node 2 needs only one of its two dependencies. *)
Definition any_dag : nx.DiGraph :=
  nx.add_edge 1 2 (nx.add_edge 0 2 nx.empty).

Definition any_policy : node → DependencyPolicy :=
  λ n, if decide (n = 2) then ANY_SUCCESS else ALL_SUCCESS.

(** A run of the sample graph in which the clock advances between
    events, and the state it ends in. *)
Definition timed_events : list event :=
  [Start 0; Tick 3; Complete 0; Tick 1; Start 1; Start 2; Tick 2;
   Complete 1; Tick 1; Start 4; Tick 1; Complete 4; Tick 1; Complete 2;
   Tick 1; Start 3; Tick 2; Complete 3].

Definition timed_state (G : nx.DiGraph) : State :=
  default (init G)
    (run_events G all_success (λ _, true) (init G) timed_events).

Definition states_of (st : State) (ns : list node) : list TaskState :=
  (λ n, tracker st !!! n) <$> ns.

(** What the tracker satisfies throughout a run in which every node has
    the default policy. *)
Record tracker_inv (G : nx.DiGraph) (jobFn : node → bool)
    (tr : gmap node TaskState) : Prop := {
  ti_succeeded : ∀ n, tr !!! n = Succeeded →
    jobFn n = true ∧ ∀ p, nx.edge G p n → tr !!! p = Succeeded;
  ti_failed : ∀ n, tr !!! n = Failed →
    jobFn n = false ∧ ∀ p, nx.edge G p n → tr !!! p = Succeeded;
  ti_active : ∀ n, tr !!! n = Ready ∨ tr !!! n = Running →
    ∀ p, nx.edge G p n → tr !!! p = Succeeded;
  ti_unreachable : ∀ n, tr !!! n = Unreachable →
    (∃ p, nx.edge G p n ∧ failed_or_unreachable (tr !!! p) = true)
    ∧ (∃ f, tc (nx.edge G) f n ∧ tr !!! f = Failed);
}.

(** What the timestamps satisfy throughout such a run. *)
Record state_inv (G : nx.DiGraph) (jobFn : node → bool) (st : State)
  : Prop := {
  si_tracker : tracker_inv G jobFn (tracker st);
  si_started : ∀ n t, startedAt st !! n = Some t →
    (tracker st !!! n = Running ∨ tracker st !!! n = Succeeded
     ∨ tracker st !!! n = Failed)
    ∧ t ≤ now st
    ∧ ∀ p, nx.edge G p n → ∃ c, completedAt st !! p = Some c ∧ c ≤ t;
  si_completed : ∀ n c, completedAt st !! n = Some c →
    (tracker st !!! n = Succeeded ∨ tracker st !!! n = Failed)
    ∧ c ≤ now st;
  si_done : ∀ n, tracker st !!! n = Succeeded ∨ tracker st !!! n = Failed →
    is_Some (completedAt st !! n);
}.

(** A node with the default policy that has left [Pending] without
    becoming [Unreachable] has only succeeded dependencies. *)
Definition strict_inv (G : nx.DiGraph) (policy : node → DependencyPolicy)
    (tr : gmap node TaskState) : Prop :=
  ∀ n, policy n = ALL_SUCCESS →
       tr !!! n ≠ Pending → tr !!! n ≠ Unreachable →
       ∀ p, nx.edge G p n → tr !!! p = Succeeded.

(** What the tracker and the timestamps satisfy throughout a run,
    whatever the policies of the nodes. *)
Record order_inv (G : nx.DiGraph) (policy : node → DependencyPolicy)
    (st : State) : Prop := {
  oi_started : ∀ n t, startedAt st !! n = Some t →
    (tracker st !!! n = Running ∨ tracker st !!! n = Succeeded
     ∨ tracker st !!! n = Failed)
    ∧ t ≤ now st
    ∧ ∀ p, nx.edge G p n →
           is_terminal (tracker st !!! p) = true
           ∧ ∀ c, completedAt st !! p = Some c → c ≤ t;
  oi_completed : ∀ n c, completedAt st !! n = Some c →
    (tracker st !!! n = Succeeded ∨ tracker st !!! n = Failed)
    ∧ c ≤ now st;
  oi_done : ∀ n, tracker st !!! n = Succeeded ∨ tracker st !!! n = Failed →
    is_Some (completedAt st !! n);
  oi_strict : strict_inv G policy (tracker st);
}.

End Scheduler.

(** ** Further vocabulary for the notebooks' code *)

Module ValidateFacts.

(** Node [n] has a recorded start time that is strictly after the
    recorded completion time of [p]. *)
Definition ran_after (w : Validate.World) (n p : node) : Prop :=
  ∃ mn mp s f,
    Validate.results w !! n = Some mn ∧ Validate.started mn = Some s
    ∧ Validate.results w !! p = Some mp ∧ Validate.completed mp = Some f
    ∧ f < s.

(** What the outcome of [validate_tree] says about the world. *)
Definition explains (w : Validate.World) (r : Py.exn + unit) : Prop :=
  match r with
  | inr _ => True
  | inl (Py.KeyError k) =>
      Validate.results w !! k = None
      ∧ (k ∈ nx.nodes (Validate.graph w)
         ∨ ∃ n, n ∈ nx.nodes (Validate.graph w)
                ∧ k ∈ nx.predecessors (Validate.graph w) n)
  | inl Py.TypeError =>
      ∃ n p mn mp,
        n ∈ nx.nodes (Validate.graph w)
        ∧ p ∈ nx.predecessors (Validate.graph w) n
        ∧ Validate.results w !! n = Some mn
        ∧ Validate.results w !! p = Some mp
        ∧ (Validate.started mn = None ∨ Validate.completed mp = None)
  | inl (Py.AssertionError n p) => Validate.starts_too_early w n p
  | inl _ => False
  end.

(** Two isolated nodes whose tasks never ran. *)
Definition unstamped_world : Validate.World :=
  {| Validate.graph := nx.add_node 1 (nx.add_node 0 nx.empty);
     Validate.results :=
       list_to_map
         [ (0, {| Validate.started := None; Validate.completed := None |});
           (1, {| Validate.started := None; Validate.completed := None |}) ]
  |}.




End ValidateFacts.

Module SubmitFacts.


(** The results the loop leaves for the sample graph submitted in the
    order 0, 1, 2, 3, 4. *)
Definition sample_results : gmap node DagDeps.AsyncResult :=
  match DagDeps.submit_loop DagDeps.sample_dag [0; 1; 2; 3; 4] ∅ 0 with
  | inr results => results
  | inl _ => ∅
  end.

End SubmitFacts.

Module RandomDagFacts.

(** An outcome that no longer depends on the fuel: the call returned or
    raised. *)
Definition settled {A} (o : DagDeps.outcome A) : Prop :=
  o ≠ DagDeps.OutOfFuel.

End RandomDagFacts.


(** ** Remote Iteration: catching remote errors *)

Module RemoteErrors.

(** The exceptions that can leave [rc[-1].execute(..., block=True)] or
    the cells around it, by the classes that the cells test for.
    [NameError cls msg] is an instance of the builtin [NameError] with
    message [msg]: [cls] is its class, [NameError] itself or a subclass
    of it such as [UnboundLocalError].  [RemoteError ename evalue
    traceback] is an instance of the client's [RemoteError], the wrapper
    of an error raised on an engine, with the three attributes that the
    notebook lists: the class name of the remote error, the string
    value of its message and the remote traceback as a list of strings;
    it is not a [NameError].  [OtherException cls msg] is an instance
    of [Exception] that is neither of the two.
    [NotException cls] is an instance of [BaseException] outside
    [Exception], such as [KeyboardInterrupt]. *)
Inductive exc :=
| NameError (cls msg : string)
| RemoteError (ename evalue : string) (traceback : list string)
| OtherException (cls msg : string)
| NotException (cls : string).

(** [isinstance(e, NameError)]: what [except NameError] catches, which
    includes the instances of subclasses. *)
Definition is_name_error (e : exc) : bool :=
  match e with
  | NameError _ _ => true
  | _ => false
  end.

(** [isinstance(e, Exception)] *)
Definition is_exception (e : exc) : bool :=
  match e with
  | NotException _ => false
  | _ => true
  end.

(** What a statement does: it raises or it completes. *)
Definition result := (exc + unit)%type.

(** The name [parallel] is looked up only when the [except] clause is
    reached; the notebook imports [ipyparallel as ipp] and never binds
    [parallel], in which case the lookup raises this error. *)
Definition parallel_undefined : exc :=
  NameError "NameError" "name 'parallel' is not defined".

(** [assign_foo]; [parallel_bound] says whether the name [parallel] is
    bound (to the module holding [RemoteError]) when the function runs,
    and [execute] is what the remote call does. *)
Definition assign_foo (parallel_bound : bool) (execute : result)
  : result :=
  match execute with
  | inr tt => inr tt
  | inl e =>
      if parallel_bound then
        match e with
        | RemoteError ename evalue _ =>
            if decide (ename = "NameError"%string) then
              inl (NameError "NameError" evalue)
            else inl e
        | _ => inl e
        end
      else inl parallel_undefined
  end.

(** The lines a cell prints. *)
Definition caught : string := "caught NameError".
Definition safe : string := "safe and sound".
Definition oops (repr : exc → string) (e : exc) : string :=
  "Oops! Didn't catch " +:+ repr e.

(** The cell
    [try: body / except NameError: print / except Exception as e:
     print; raise e / print("safe and sound")]:
    the lines printed and how the cell ends.  [repr] is [%r]. *)
Definition guarded (repr : exc → string) (body : result)
  : list string * result :=
  match body with
  | inr tt => ([safe], inr tt)
  | inl e =>
      if is_name_error e then ([caught; safe], inr tt)
      else if is_exception e then ([oops repr e], inl e)
      else ([], inl e)
  end.

(** The error is one raised on an engine by an unbound name. *)
Definition remote_name_error (r : result) : Prop :=
  ∃ evalue traceback, r = inl (RemoteError "NameError" evalue traceback).

(** The error is a local [NameError], of that class or of a subclass. *)
Definition local_name_error (r : result) : Prop :=
  ∃ cls msg, r = inl (NameError cls msg).

End RemoteErrors.
(** * Proofs *)

(** Membership in, and inversion of membership in, a literal list. *)
Ltac elem_here := repeat first [by left | right].
Ltac elem_inv H :=
  repeat (apply elem_of_cons in H as [H|H]; [simplify_eq|]);
  try (by apply elem_of_nil in H).

(** ** Facts about [range] and [load_data] *)

Lemma arith_progression_sorted (start step : Z) (k n : nat) :
  0 < step →
  StronglySorted Z.lt
    (map (λ i : nat, start + Z.of_nat i * step) (seq k n)).
Proof.
  intros Hstep. revert k.
  induction n as [|n IH]; intros k; simpl; constructor.
  - apply IH.
  - apply Forall_forall. intros x Hx.
    apply list_elem_of_fmap in Hx as (j & -> & Hj).
    apply elem_of_seq in Hj. nia.
Qed.

Lemma range_len_load_data (arg : Z) :
  0 ≤ arg →
  Py.range_len (4 - arg) (4 - arg + 4 * (arg + 1) ^ 2) (arg + 1)
  = 4 * (arg + 1).
Proof.
  intros Harg. unfold Py.range_len.
  destruct (Z.ltb_spec 0 (arg + 1)); [|lia].
  destruct (Z.ltb_spec (4 - arg) (4 - arg + 4 * (arg + 1) ^ 2)); [|nia].
  replace (4 - arg + 4 * (arg + 1) ^ 2 - (4 - arg) - 1)
    with ((4 * (arg + 1) - 1) * (arg + 1) + arg) by nia.
  rewrite Z.div_add_l by lia.
  rewrite Z.div_small by lia. lia.
Qed.

(** C9: for every integer [arg >= 0], [load_data] returns the name
    ['data'], and the dataset it binds under that name is
    [range(4-arg, 4-arg + 4*(arg+1)^2, arg+1)], which is strictly
    increasing, hence sorted as the docstring requires. *)
Theorem load_data_sorted (arg : Z) (globals : gmap string (list Z)) :
  0 ≤ arg →
  ∃ data,
    RemoteIteration.load_data arg globals
      = Some ("data"%string, <["data"%string := data]> globals)
    ∧ Py.range (4 - arg) (4 - arg + 4 * (arg + 1) ^ 2) (arg + 1) = Some data
    ∧ length data = Z.to_nat (4 * (arg + 1))
    ∧ StronglySorted Z.lt data.
Proof.
  intros Harg. unfold RemoteIteration.load_data, Py.range.
  destruct (Z.eqb_spec (arg + 1) 0) as [|_]; [lia|].
  eexists. split; [reflexivity|]. split; [reflexivity|]. split.
  - rewrite length_map, length_seq, range_len_load_data by done. done.
  - apply arith_progression_sorted. lia.
Qed.

Lemma load_data_sorted_witness :
  0 ≤ 2 ∧
  ∃ data,
    RemoteIteration.load_data 2 ∅
      = Some ("data"%string, <["data"%string := data]> ∅)
    ∧ Py.range (4 - 2) (4 - 2 + 4 * (2 + 1) ^ 2) (2 + 1) = Some data
    ∧ length data = Z.to_nat (4 * (2 + 1))
    ∧ StronglySorted Z.lt data.
Proof. split; [lia | apply (load_data_sorted 2 ∅); lia]. Defined.

(** ** [validate_tree] *)

Section validate.
Import Validate.

Lemma for_each_read_only {X} (l : list X) (body : X → M unit) w :
  (∀ x w', (body x w').2 = w') → (for_each l body w).2 = w.
Proof.
  intros Hbody. induction l as [|x l IH]; [done|].
  simpl. unfold mbind, M_bind.
  specialize (Hbody x w). destruct (body x w) as [[e|[]] w']; simpl in *;
    subst; done.
Qed.

Lemma assert_after_read_only s f n p w : (assert_after s f n p w).2 = w.
Proof.
  unfold assert_after. destruct s, f; try done. by destruct (_ <? _).
Qed.

Lemma check_parent_read_only s n p w : (check_parent s n p w).2 = w.
Proof.
  unfold check_parent, mbind, M_bind, get_metadata.
  destruct (results w !! p) as [pmd|]; [|done].
  apply assert_after_read_only.
Qed.

Lemma check_node_read_only n w : (check_node n w).2 = w.
Proof.
  unfold check_node, mbind, M_bind, get_metadata, get_predecessors.
  destruct (results w !! n) as [md|]; [|done].
  apply for_each_read_only. intros p w'. apply check_parent_read_only.
Qed.


(** A loop whose body either passes or raises, leaving the world as it
    is, passes on every item or raises at the first failing one. *)
Lemma for_each_cases {X} (l : list X) (body : X → M unit) w :
  (∀ x, x ∈ l → body x w = (inr (), w) ∨ ∃ e, body x w = (inl e, w)) →
  (for_each l body w = (inr (), w) ∧ ∀ x, x ∈ l → body x w = (inr (), w))
  ∨ (∃ x e, x ∈ l ∧ body x w = (inl e, w) ∧ for_each l body w = (inl e, w)).
Proof.
  induction l as [|x l IH]; intros Hbody.
  - left. split; [done|]. intros x Hx. by apply elem_of_nil in Hx.
  - simpl. unfold mbind, M_bind.
    destruct (Hbody x) as [Hx|[e Hx]]; [left|..]; rewrite Hx.
    + destruct IH as [[Hl Hall]|(y & e & Hy & Hye & Hl)].
      * intros y Hy. apply Hbody. by right.
      * left. split; [done|]. intros y [->|Hy]%elem_of_cons; auto.
      * right. exists y, e. split; [by right|]. done.
    + right. exists x, e. split; [left|]; done.
Qed.

Lemma validate_tree_unfold w :
  validate_tree w = for_each (nx.nodes (graph w)) check_node w.
Proof. done. Qed.

Lemma check_parent_spec w n p s f mp :
  results w !! p = Some mp → completed mp = Some f →
  check_parent (Some s) n p w
  = if decide (f < s) then (inr (), w) else (inl (Py.AssertionError n p), w).
Proof.
  intros Hp Hf. unfold check_parent, mbind, M_bind, get_metadata.
  rewrite Hp. simpl. rewrite Hf.
  destruct (Z.ltb_spec f s); case_decide; done || lia.
Qed.

Lemma fully_recorded_comparable w : fully_recorded w → comparable w.
Proof.
  intros Hrec n Hn. destruct (Hrec n) as (s & f & Hmd); [by left|].
  eexists. split; [done|]. intros p Hp.
  destruct (Hrec p) as (sp & fp & Hmp); [right; eauto|].
  eexists _, s, fp. done.
Qed.

Lemma check_node_spec w n :
  comparable w → n ∈ nx.nodes (graph w) →
  (check_node n w = (inr (), w) ∧ ∀ p, ¬ starts_too_early w n p)
  ∨ (∃ p, check_node n w = (inl (Py.AssertionError n p), w)
          ∧ starts_too_early w n p).
Proof.
  intros Hrec Hn. destruct (Hrec n Hn) as (mn & Hmd & Hpar).
  unfold check_node, mbind, M_bind, get_metadata, get_predecessors.
  rewrite Hmd. simpl.
  destruct (for_each_cases (nx.predecessors (graph w) n)
              (check_parent (started mn) n) w)
    as [[Hok Hall]|(p & e & Hp & He & Hfail)].
  - intros p Hp. destruct (Hpar p Hp) as (mp & s & fp & Hmp & Hs & Hfp).
    rewrite Hs, (check_parent_spec w n p s fp mp) by done.
    case_decide; eauto.
  - left. split; [done|].
    intros p (_ & Hp & mn' & mp & s' & f' & Hmn & Hs' & Hmp & Hf' & Hlt).
    specialize (Hall p Hp). rewrite Hmd in Hmn. simplify_eq.
    rewrite Hs', (check_parent_spec w n p s' f' mp) in Hall by done.
    case_decide; [lia|done].
  - right. destruct (Hpar p Hp) as (mp & s & fp & Hmp & Hs & Hfp).
    rewrite Hs, (check_parent_spec w n p s fp mp) in He by done.
    case_decide; [done|]. simplify_eq. exists p. split; [done|].
    split; [done|]. split; [done|]. by exists mn, mp, s, fp.
Qed.

Lemma validate_tree_comparable w :
  comparable w →
  (validate_tree w = (inr (), w) ∧ ∀ n p, ¬ starts_too_early w n p)
  ∨ (∃ n p, validate_tree w = (inl (Py.AssertionError n p), w)
            ∧ starts_too_early w n p).
Proof.
  intros Hrec. rewrite validate_tree_unfold.
  destruct (for_each_cases (nx.nodes (graph w)) check_node w)
    as [[Hok Hall]|(n & e & Hn & He & Hfail)].
  - intros n Hn. destruct (check_node_spec w n Hrec Hn) as [[-> _]|(p & -> & _)];
      eauto.
  - left. split; [done|]. intros n p Hbad.
    destruct (check_node_spec w n Hrec) as [[_ Hno]|(p' & Hp' & _)].
    + by destruct Hbad.
    + by eapply Hno.
    + rewrite Hall in Hp'; [done|]. by destruct Hbad.
  - right. destruct (check_node_spec w n Hrec Hn) as [[Hok _]|(p & Hp & Hbad)].
    + rewrite Hok in He. done.
    + rewrite Hp in He. simplify_eq. eauto.
Qed.

Lemma validate_tree_spec w :
  fully_recorded w →
  (validate_tree w = (inr (), w) ∧ ∀ n p, ¬ starts_too_early w n p)
  ∨ (∃ n p, validate_tree w = (inl (Py.AssertionError n p), w)
            ∧ starts_too_early w n p).
Proof. intros Hrec. by apply validate_tree_comparable, fully_recorded_comparable. Qed.

Lemma for_each_raises {X} (l : list X) (body : X → M unit) w e w' :
  (∀ x w0, (body x w0).2 = w0) →
  for_each l body w = (inl e, w') →
  ∃ x, x ∈ l ∧ body x w = (inl e, w).
Proof.
  intros Hro. induction l as [|x l IH]; simpl; [done|].
  unfold mbind, M_bind. pose proof (Hro x w) as Hx.
  destruct (body x w) as [[e'|[]] w1] eqn:Hbody; simpl in Hx; subst w1.
  - intros [= -> ->]. exists x. split; [left|done].
  - intros (y & Hy & Hbody')%IH. exists y. split; [by right|done].
Qed.





Lemma for_each_returns {X} (l : list X) (body : X → M unit) w :
  (∀ x w0, (body x w0).2 = w0) →
  (for_each l body w).1 = inr () ↔ ∀ x, x ∈ l → (body x w).1 = inr ().
Proof.
  intros Hro. induction l as [|x l IH]; simpl.
  - split; [|done]. intros _ x Hx. by apply elem_of_nil in Hx.
  - unfold mbind, M_bind. pose proof (Hro x w) as Hx.
    destruct (body x w) as [[e|[]] w1] eqn:Hbody; simpl in Hx; subst w1.
    + split; [done|]. intros Hall.
      specialize (Hall x (list_elem_of_here _ _)). by rewrite Hbody in Hall.
    + rewrite IH. split.
      * intros Hall y [->|Hy]%elem_of_cons; [by rewrite Hbody|auto].
      * intros Hall y Hy. apply Hall. by right.
Qed.

Lemma check_parent_returns s n p w :
  (check_parent s n p w).1 = inr () ↔
  ∃ mp s' f, results w !! p = Some mp ∧ s = Some s'
             ∧ completed mp = Some f ∧ f < s'.
Proof.
  unfold check_parent, mbind, M_bind, get_metadata.
  destruct (results w !! p) as [mp|] eqn:Hp; simpl.
  - unfold assert_after. destruct s as [s'|]; simpl.
    + destruct (completed mp) as [f|] eqn:Hf; simpl.
      * destruct (Z.ltb_spec f s'); simpl.
        -- split; [|done]. intros _. by exists mp, s', f.
        -- split; [done|]. intros (? & ? & ? & ? & ? & ? & ?).
           simplify_eq. lia.
      * split; [done|]. intros (? & ? & ? & ? & ? & ? & ?). simplify_eq.
    + split; [done|]. intros (? & ? & ? & ? & ? & ? & ?). simplify_eq.
  - split; [done|]. intros (? & ? & ? & ? & ? & ? & ?). simplify_eq.
Qed.


End validate.


(** ** Graph construction keeps the graph well formed *)

Lemma wf_empty : nx.wf nx.empty.
Proof.
  split; simpl; try apply NoDup_nil_2; intros a b Hab;
    by apply elem_of_nil in Hab.
Qed.

Lemma nodes_add_node n G x :
  x ∈ nx.nodes (nx.add_node n G) ↔ x = n ∨ x ∈ nx.nodes G.
Proof.
  unfold nx.add_node. case_decide; simpl.
  - split; [auto|]. by intros [->|?].
  - rewrite elem_of_app, list_elem_of_singleton. tauto.
Qed.

Lemma edges_add_node n G : nx.edges (nx.add_node n G) = nx.edges G.
Proof. unfold nx.add_node. by case_decide. Qed.

Lemma wf_add_node n G : nx.wf G → nx.wf (nx.add_node n G).
Proof.
  intros [Hn He Hs Hd]. split.
  - unfold nx.add_node. case_decide; simpl; [done|].
    apply NoDup_app. split; [done|]. split; [|apply NoDup_singleton].
    intros x Hx ->%list_elem_of_singleton. done.
  - by rewrite edges_add_node.
  - intros a b. rewrite edges_add_node, nodes_add_node. eauto.
  - intros a b. rewrite edges_add_node, nodes_add_node. eauto.
Qed.

Lemma nodes_add_edge a b G x :
  x ∈ nx.nodes (nx.add_edge a b G) ↔ x = a ∨ x = b ∨ x ∈ nx.nodes G.
Proof.
  unfold nx.add_edge. case_decide; simpl;
    rewrite !nodes_add_node; tauto.
Qed.

Lemma edges_add_edge a b G e :
  e ∈ nx.edges (nx.add_edge a b G) ↔ e = (a, b) ∨ e ∈ nx.edges G.
Proof.
  unfold nx.add_edge. rewrite !edges_add_node. case_decide; simpl.
  - rewrite ?edges_add_node. split; [auto|]. by intros [->|?].
  - rewrite ?edges_add_node, elem_of_app, list_elem_of_singleton. tauto.
Qed.

Lemma wf_add_edge a b G : nx.wf G → nx.wf (nx.add_edge a b G).
Proof.
  intros HG.
  assert (H1 : nx.wf (nx.add_node b (nx.add_node a G)))
    by auto using wf_add_node.
  split.
  - unfold nx.add_edge. case_decide; simpl; apply H1.
  - unfold nx.add_edge. case_decide as Hin; simpl; [apply H1|].
    apply NoDup_app. split; [apply H1|]. split; [|apply NoDup_singleton].
    intros x Hx ->%list_elem_of_singleton. done.
  - intros x y. rewrite edges_add_edge, nodes_add_edge.
    intros [?|Hin]; simplify_eq; auto. right; right. by eapply nx.wf_src.
  - intros x y. rewrite edges_add_edge, nodes_add_edge.
    intros [?|Hin]; simplify_eq; auto. right; right. by eapply nx.wf_dst.
Qed.

Lemma wf_remove_edge a b G G' :
  nx.wf G → nx.remove_edge a b G = Some G' → nx.wf G'.
Proof.
  intros [Hn He Hs Hd]. unfold nx.remove_edge. case_decide; [|done].
  intros [= <-]. split; simpl.
  - done.
  - by apply NoDup_filter.
  - intros x y [_ Hin]%list_elem_of_filter. eauto.
  - intros x y [_ Hin]%list_elem_of_filter. eauto.
Qed.

Lemma elem_of_predecessors G a b :
  a ∈ nx.predecessors G b ↔ nx.edge G a b.
Proof.
  unfold nx.predecessors, nx.edge. rewrite list_elem_of_fmap. split.
  - intros ([x y] & -> & [Hy Hin]%list_elem_of_filter). simpl in *. by subst.
  - intros Hin. exists (a, b). split; [done|].
    apply list_elem_of_filter. done.
Qed.

Lemma elem_of_successors G a b :
  b ∈ nx.successors G a ↔ nx.edge G a b.
Proof.
  unfold nx.successors, nx.edge. rewrite list_elem_of_fmap. split.
  - intros ([x y] & -> & [Hy Hin]%list_elem_of_filter). simpl in *. by subst.
  - intros Hin. exists (a, b). split; [done|].
    apply list_elem_of_filter. done.
Qed.

(** ** Kahn's algorithm *)

Section kahn.
Import Sequencer.

Lemma length_filter_split {A} (P Q R : A → Prop)
    `{!∀ x, Decision (P x), !∀ x, Decision (Q x), !∀ x, Decision (R x)}
    (l : list A) :
  (∀ x, x ∈ l → (P x ↔ Q x ∨ R x) ∧ ¬ (Q x ∧ R x)) →
  length (filter P l) = (length (filter Q l) + length (filter R l))%nat.
Proof.
  induction l as [|x l IH]; intros Hl; [done|].
  rewrite !filter_cons.
  destruct (Hl x) as [HP Hex]; [by left|].
  assert (IH' := IH (λ y Hy, Hl y (list_elem_of_further _ _ _ Hy))).
  repeat case_decide; simpl; rewrite ?IH'; try lia; tauto.
Qed.

Lemma filter_ext_elem_of {A} (P Q : A → Prop)
    `{!∀ x, Decision (P x), !∀ x, Decision (Q x)} (l : list A) :
  (∀ x, x ∈ l → (P x ↔ Q x)) → filter P l = filter Q l.
Proof.
  induction l as [|x l IH]; intros Hl; [done|].
  rewrite !filter_cons.
  assert (IH' := IH (λ y Hy, Hl y (list_elem_of_further _ _ _ Hy))).
  destruct (Hl x) as [H1 H2]; [by left|].
  repeat case_decide; rewrite ?IH'; try done; tauto.
Qed.

Lemma length_filter_ne (l : list node) (n : node) :
  NoDup l → n ∈ l → length l = S (length (filter (λ m, m ≠ n) l)).
Proof.
  induction 1 as [|x l Hx Hl IH]; intros Hn.
  - by apply elem_of_nil in Hn.
  - rewrite filter_cons. apply elem_of_cons in Hn as [<-|Hn].
    + case_decide; [done|]. simpl. f_equal.
      clear IH Hl. induction l as [|y l IH]; [done|].
      rewrite filter_cons. apply not_elem_of_cons in Hx as [Hne Hx].
      case_decide; [|done]. simpl. f_equal. auto.
    + case_decide; [|by subst]. simpl. f_equal. auto.
Qed.

Lemma foldl_decrement_lookup (es : list (node * node)) n s indeg :
  foldl decrement indeg (filter (λ e : node * node, e.1 = n) es).*2 !! s
  = (λ d, d - Z.of_nat
        (length (filter (λ e : node * node, e.1 = n ∧ e.2 = s) es)))
      <$> indeg !! s.
Proof.
  revert indeg. induction es as [|[a b] es IH]; intros indeg.
  - simpl. destruct (indeg !! s); simpl; f_equal. lia.
  - rewrite !filter_cons. simpl.
    destruct (decide (a = n)) as [->|Hne]; simpl; rewrite IH.
    + unfold decrement. rewrite lookup_alter.
      repeat case_decide; try (exfalso; tauto); subst;
        destruct (indeg !! _); simpl; f_equal; lia.
    + repeat case_decide; try (exfalso; tauto); done.
Qed.

Lemma pending_in_remove G todo n s :
  n ∈ todo →
  pending_in G todo s
  = (pending_in G (filter (λ m, m ≠ n) todo) s
     + length (filter (λ e : node * node, e.1 = n ∧ e.2 = s) (nx.edges G)))%nat.
Proof.
  intros Hn. unfold pending_in. apply length_filter_split.
  intros [a b] _. simpl. rewrite list_elem_of_filter.
  destruct (decide (a = n)); subst; intuition congruence.
Qed.

Lemma pending_in_zero G todo a b :
  pending_in G todo b = 0%nat → nx.edge G a b → a ∉ todo.
Proof.
  unfold pending_in, nx.edge. intros Hz Hab Ha.
  assert (Hin : (a, b) ∈ filter (λ e : node * node, e.2 = b ∧ e.1 ∈ todo)
                  (nx.edges G)) by (apply list_elem_of_filter; done).
  destruct (filter _ _); [by apply elem_of_nil in Hin|done].
Qed.

Lemma pending_in_pos G todo b :
  pending_in G todo b ≠ 0%nat → ∃ a, a ∈ todo ∧ nx.edge G a b.
Proof.
  unfold pending_in, nx.edge. intros Hz.
  destruct (filter _ _) as [|[a b'] l] eqn:Hf; [done|].
  assert (Hin : (a, b') ∈ filter (λ e : node * node, e.2 = b ∧ e.1 ∈ todo)
                  (nx.edges G)) by (rewrite Hf; left).
  apply list_elem_of_filter in Hin as [[Hb Ha] Hin]. simpl in *. subst. eauto.
Qed.

Lemma in_degrees_lookup G n :
  n ∈ nx.nodes G →
  in_degrees G !! n = Some (Z.of_nat (length (nx.predecessors G n))).
Proof.
  unfold in_degrees. generalize (nx.nodes G) as l.
  induction l as [|x l IH]; intros Hn; [by apply elem_of_nil in Hn|].
  simpl. rewrite lookup_insert. case_decide; [by subst|].
  apply elem_of_cons in Hn as [->|Hn]; [done|]. auto.
Qed.

Lemma predecessors_pending G n :
  nx.wf G → length (nx.predecessors G n) = pending_in G (nx.nodes G) n.
Proof.
  intros HG. unfold nx.predecessors, pending_in. rewrite length_fmap.
  f_equal. apply filter_ext_elem_of.
  intros [a b] Hab. simpl. split; [|tauto].
  intros ->. split; [done|]. by eapply nx.wf_src.
Qed.

Lemma kahn_inv_init G :
  nx.wf G → kahn_inv G (in_degrees G) (nx.nodes G) [].
Proof.
  intros HG. split.
  - apply NoDup_nil_2.
  - apply HG.
  - intros n Hn. by apply elem_of_nil in Hn.
  - intros n. split; [auto|]. intros [Hn|Hn]; [by apply elem_of_nil in Hn|done].
  - intros s Hs. rewrite in_degrees_lookup by done.
    by rewrite predecessors_pending.
  - intros a b _ Hb. by apply elem_of_nil in Hb.
Qed.

Lemma precedes_app_l l k a b : precedes l a b → precedes (l ++ k) a b.
Proof.
  intros (i & j & Hi & Hj & Hij). exists i, j.
  split; [|split; [|done]]; by apply lookup_app_l_Some.
Qed.

Lemma precedes_snoc l a b : a ∈ l → precedes (l ++ [b]) a b.
Proof.
  intros (i & Hi)%list_elem_of_lookup. exists i, (length l).
  split; [by apply lookup_app_l_Some|]. split.
  - rewrite lookup_app_r by lia. by rewrite Nat.sub_diag.
  - by eapply lookup_lt_Some.
Qed.

Lemma kahn_inv_step G indeg todo out n :
  nx.wf G → kahn_inv G indeg todo out →
  n ∈ todo → indeg !! n = Some 0 →
  kahn_inv G (foldl decrement indeg (nx.successors G n))
    (filter (λ m, m ≠ n) todo) (out ++ [n]).
Proof.
  intros HG [Hout Htodo Hdisj Hall Hdeg Hord] Hn Hzero. split.
  - apply NoDup_app. split; [done|]. split; [|apply NoDup_singleton].
    intros x Hx ->%list_elem_of_singleton. by apply (Hdisj n).
  - by apply NoDup_filter.
  - intros x [Hx| ->%list_elem_of_singleton]%elem_of_app
      [Hne Hx']%list_elem_of_filter; [by apply (Hdisj x)|done].
  - intros x. rewrite Hall, elem_of_app, list_elem_of_singleton,
      list_elem_of_filter.
    destruct (decide (x = n)); subst; tauto.
  - intros s [Hne Hs]%list_elem_of_filter. unfold nx.successors.
    rewrite foldl_decrement_lookup, (Hdeg s Hs). simpl. f_equal.
    rewrite (pending_in_remove G todo n s Hn). lia.
  - intros a b Hab [Hb| ->%list_elem_of_singleton]%elem_of_app.
    + by apply precedes_app_l, Hord.
    + apply precedes_snoc.
      rewrite (Hdeg n Hn) in Hzero.
      assert (Hz : pending_in G todo n = 0%nat) by (simplify_eq; lia).
      pose proof (pending_in_zero G todo a n Hz Hab) as Ha.
      destruct (proj1 (Hall a)); [by eapply nx.wf_src|done|done].
Qed.

Lemma kahn_result fuel G indeg todo out :
  nx.wf G → kahn_inv G indeg todo out → fuel = length todo →
  ∃ indeg' todo',
    kahn_inv G indeg' todo' (kahn fuel G indeg todo out)
    ∧ ∀ n, n ∈ todo' → indeg' !! n ≠ Some 0.
Proof.
  intros HG. revert indeg todo out.
  induction fuel as [|fuel IH]; intros indeg todo out Hinv Hlen.
  - destruct todo; [|done]. exists indeg, []. split; [done|].
    intros n Hn. by apply elem_of_nil in Hn.
  - simpl. destruct (list_find _ todo) as [[i n]|] eqn:Hfind.
    + apply list_find_Some in Hfind as (Hi & Hz & _).
      assert (Hn : n ∈ todo) by (apply list_elem_of_lookup; eauto).
      apply IH.
      * by apply kahn_inv_step.
      * rewrite (length_filter_ne todo n) in Hlen; [lia| |done].
        apply Hinv.
    + exists indeg, todo. split; [done|].
      apply list_find_None in Hfind. intros n Hn.
      by eapply (proj1 (Forall_forall _ _)) in Hfind.
Qed.

(** A non-empty set of nodes each of which has a predecessor in the set
    holds a cycle. *)
Lemma no_source_cycle G (todo : list node) n0 :
  n0 ∈ todo →
  (∀ n, n ∈ todo → ∃ a, a ∈ todo ∧ nx.edge G a n) →
  ¬ nx.acyclic G.
Proof.
  intros Hn0 Hpred Hac.
  set (R := λ x y : node, nx.edge G y x ∧ y ∈ todo).
  assert (Hflip : ∀ x y, tc R x y → tc (nx.edge G) y x ∧ y ∈ todo).
  { induction 1 as [x y [Hxy Hy]|x y z [Hxy Hy] _ [IH Hz]].
    - split; [by apply tc_once|done].
    - split; [|done]. eapply tc_r; eauto. }
  assert (Hsn : sn R n0).
  { apply tc_finite_sn.
    - intros x Hx. apply Hflip in Hx as [Hx _]. by apply (Hac x).
    - exists todo. intros y Hy. by apply Hflip in Hy as [_ Hy]. }
  induction Hsn as [x _ IH].
  destruct (Hpred x Hn0) as (a & Ha & Hax).
  apply (IH a); [|done]. split; done.
Qed.

Lemma precedes_trans l a b c :
  NoDup l → precedes l a b → precedes l b c → precedes l a c.
Proof.
  intros Hl (i & j & Hi & Hj & Hij) (j' & k & Hj' & Hk & Hjk).
  assert (j = j') as <- by (eapply NoDup_lookup; eauto).
  exists i, k. split; [done|]. split; [done|]. lia.
Qed.

Lemma precedes_irrefl l a : NoDup l → ¬ precedes l a a.
Proof.
  intros Hl (i & j & Hi & Hj & Hij).
  assert (i = j) by (eapply NoDup_lookup; eauto). lia.
Qed.

Lemma precedes_elem_of_r l a b : precedes l a b → b ∈ l.
Proof. intros (i & j & _ & Hj & _). apply list_elem_of_lookup; eauto. Qed.

Lemma topological_order_acyclic G l :
  NoDup l → (∀ a b, nx.edge G a b → precedes l a b) → nx.acyclic G.
Proof.
  intros Hl Hord n Hn.
  assert (Hprec : ∀ a b, tc (nx.edge G) a b → precedes l a b).
  { induction 1 as [a b Hab|a b c Hab _ IH]; [auto|].
    eapply precedes_trans; eauto. }
  by apply (precedes_irrefl l n), Hprec.
Qed.

Lemma sequence_sound G l :
  nx.wf G → sequence G = Some l →
  NoDup l ∧ l ≡ₚ nx.nodes G ∧ ∀ a b, nx.edge G a b → precedes l a b.
Proof.
  intros HG. unfold sequence. case_decide as Hlen; [done|]. intros [= <-].
  destruct (kahn_result (length (nx.nodes G)) G (in_degrees G) (nx.nodes G) [])
    as (indeg' & todo' & [Hout Htodo Hdisj Hall Hdeg Hord] & _);
    [done|by apply kahn_inv_init|done|].
  set (out := kahn _ _ _ _ _) in *.
  assert (Hperm : out ++ todo' ≡ₚ nx.nodes G).
  { apply NoDup_Permutation.
    - apply NoDup_app. done.
    - apply HG.
    - intros x. rewrite elem_of_app. symmetry. apply Hall. }
  assert (todo' = []) as ->.
  { apply Permutation_length in Hperm. rewrite length_app in Hperm.
    destruct todo'; [done|]. simpl in *. lia. }
  rewrite app_nil_r in Hperm. split; [done|]. split; [done|].
  intros a b Hab. apply Hord; [done|].
  rewrite Hperm. by eapply nx.wf_dst.
Qed.

Lemma sequence_complete G :
  nx.wf G → nx.acyclic G → is_Some (sequence G).
Proof.
  intros HG Hac. unfold sequence.
  destruct (kahn_result (length (nx.nodes G)) G (in_degrees G) (nx.nodes G) [])
    as (indeg' & todo' & [Hout Htodo Hdisj Hall Hdeg Hord] & Hstuck);
    [done|by apply kahn_inv_init|done|].
  set (out := kahn _ _ _ _ _) in *.
  assert (todo' = []) as ->.
  { destruct (decide (todo' = [])) as [|Hne]; [done|].
    assert (∃ n0, n0 ∈ todo') as [n0 Hn0].
    { destruct todo' as [|n0 ?]; [done|]. exists n0. left. }
    destruct (no_source_cycle G todo' n0); [done| |done].
    intros n Hn. apply pending_in_pos.
    specialize (Hstuck n Hn). rewrite (Hdeg n Hn) in Hstuck.
    intros Hz. apply Hstuck. by rewrite Hz. }
  assert (Hperm : out ≡ₚ nx.nodes G).
  { apply NoDup_Permutation; [done|apply HG|].
    intros x. rewrite Hall. split; [auto|]. intros [?|Hx]; [done|].
    by apply elem_of_nil in Hx. }
  apply Permutation_length in Hperm.
  case_decide; [lia|]. eauto.
Qed.

Lemma is_directed_acyclic_graph_spec G :
  nx.wf G → is_directed_acyclic_graph G = true ↔ nx.acyclic G.
Proof.
  intros HG. unfold is_directed_acyclic_graph, topological_sort.
  rewrite bool_decide_eq_true. split.
  - intros [l Hl]. apply sequence_sound in Hl as (Hnd & _ & Hord); [|done].
    by eapply topological_order_acyclic.
  - by apply sequence_complete.
Qed.

End kahn.

(** ** [random_dag] *)

Example sample_dag_nodes : nx.nodes DagDeps.sample_dag = [0; 1; 2; 3; 4].
Proof. reflexivity. Qed.

Example sample_dag_edges :
  nx.edges DagDeps.sample_dag = [(0, 1); (0, 2); (1, 3); (2, 3); (1, 4)].
Proof. reflexivity. Qed.

Example sample_dag_eager_same : DagDeps.sample_dag_eager = DagDeps.sample_dag.
Proof. reflexivity. Qed.

Example sample_dag_sequence :
  Sequencer.topological_sort DagDeps.sample_dag = Some [0; 1; 2; 3; 4].
Proof. vm_compute. reflexivity. Qed.

Example random_dag_3_2 :
  DagDeps.random_dag 10 (DagDeps.tape [0; 1; 1; 1; 2; 0]) 3 2
  = DagDeps.Returns {| nx.nodes := [0; 1; 2]; nx.edges := [(0, 1); (1, 2)] |}.
Proof. vm_compute. reflexivity. Qed.

Example random_dag_cycle_rejected :
  DagDeps.random_dag 10 (DagDeps.tape [0; 1; 1; 0; 1; 2]) 3 2
  = DagDeps.Returns {| nx.nodes := [0; 1; 2]; nx.edges := [(0, 1); (1, 2)] |}.
Proof. vm_compute. reflexivity. Qed.

Example random_dag_duplicate :
  DagDeps.random_dag 10 (DagDeps.tape [0; 1]) 3 2
  = DagDeps.Returns {| nx.nodes := [0; 1; 2]; nx.edges := [(0, 1)] |}.
Proof. vm_compute. reflexivity. Qed.

Section random_dag.
Import DagDeps.

Lemma elem_of_range1 n x : x ∈ Py.range1 n ↔ 0 ≤ x < n.
Proof.
  unfold Py.range1. rewrite list_elem_of_fmap. split.
  - intros (i & -> & Hi). apply elem_of_seq in Hi. lia.
  - intros Hx. exists (Z.to_nat x). split; [lia|]. apply elem_of_seq. lia.
Qed.

Lemma NoDup_range1 n : NoDup (Py.range1 n).
Proof. apply NoDup_fmap_2; [apply _|apply NoDup_seq]. Qed.

Lemma length_range1 n : length (Py.range1 n) = Z.to_nat n.
Proof. unfold Py.range1. by rewrite length_fmap, length_seq. Qed.

Lemma add_nodes_fresh (l : list node) G :
  NoDup l → (∀ x, x ∈ l → x ∉ nx.nodes G) →
  nx.nodes (foldl (λ G i, nx.add_node i G) G l) = nx.nodes G ++ l
  ∧ nx.edges (foldl (λ G i, nx.add_node i G) G l) = nx.edges G.
Proof.
  intros Hl. revert G. induction Hl as [|x l Hx Hl IH]; intros G Hfresh.
  - simpl. by rewrite app_nil_r.
  - simpl. destruct (IH (nx.add_node x G)) as [Hn He].
    + intros y Hy. rewrite nodes_add_node. intros [->|Hy']; [done|].
      by apply (Hfresh y); [right|].
    + rewrite Hn, He, edges_add_node. split; [|done].
      unfold nx.add_node. rewrite decide_False by (apply Hfresh; left).
      simpl. by rewrite <-app_assoc.
Qed.

Lemma initial_graph nodes edges :
  nx.nodes (graph (initial nodes edges)) = Py.range1 nodes
  ∧ nx.edges (graph (initial nodes edges)) = [].
Proof.
  unfold initial. simpl.
  destruct (add_nodes_fresh (Py.range1 nodes) nx.empty) as [Hn He].
  - apply NoDup_range1.
  - intros x _ Hx. by apply elem_of_nil in Hx.
  - by rewrite Hn, He.
Qed.

Lemma add_node_present n G : n ∈ nx.nodes G → nx.add_node n G = G.
Proof. intros Hn. unfold nx.add_node. by rewrite decide_True. Qed.

Lemma nodes_add_edge_present a b G :
  a ∈ nx.nodes G → b ∈ nx.nodes G →
  nx.nodes (nx.add_edge a b G) = nx.nodes G.
Proof.
  intros Ha Hb. unfold nx.add_edge.
  rewrite (add_node_present a G Ha), (add_node_present b G Hb).
  by case_decide.
Qed.

Lemma edges_add_edge_cases a b G :
  ((a, b) ∈ nx.edges G ∧ nx.edges (nx.add_edge a b G) = nx.edges G)
  ∨ (((a, b) ∉ nx.edges G)
     ∧ nx.edges (nx.add_edge a b G) = nx.edges G ++ [(a, b)]).
Proof.
  unfold nx.add_edge. rewrite !edges_add_node.
  case_decide; simpl; rewrite ?edges_add_node; auto.
Qed.

Lemma acyclic_subgraph G G' :
  (∀ e, e ∈ nx.edges G' → e ∈ nx.edges G) → nx.acyclic G → nx.acyclic G'.
Proof.
  intros Hsub Hac n Hn. apply (Hac n).
  assert (Hmono : ∀ x y, tc (nx.edge G') x y → tc (nx.edge G) x y); [|auto].
  clear n Hn. intros x y Hxy. induction Hxy as [x y Hxy|x y z Hxy _ IH].
  - apply tc_once. by apply Hsub.
  - eapply tc_l; [|exact IH]. by apply Hsub.
Qed.

Lemma acyclic_no_edges G : nx.edges G = [] → nx.acyclic G.
Proof.
  intros He n Hn. destruct Hn as [x y Hxy|x y z Hxy _];
    unfold nx.edge in Hxy; rewrite He in Hxy; by apply elem_of_nil in Hxy.
Qed.

Lemma randint_range lo hi rng pos x pos' :
  randint lo hi rng pos = Some (x, pos') → lo ≤ x ≤ hi ∧ pos' = S pos.
Proof.
  unfold randint. case_decide; [done|]. intros [= <- <-].
  pose proof (Z.mod_pos_bound (rng pos) (hi - lo + 1)). lia.
Qed.

Lemma redraw_spec fuel nodes rng a b pos b' pos' :
  b = a ∨ 0 ≤ b ≤ nodes - 1 →
  redraw fuel nodes rng a b pos = Returns (b', pos') →
  b' ≠ a ∧ 0 ≤ b' ≤ nodes - 1.
Proof.
  revert b pos. induction fuel as [|fuel IH]; intros b pos Hb; simpl.
  - case_decide; [done|]. intros [= <- <-]. split; [done|]. by destruct Hb.
  - case_decide.
    + destruct (randint _ _ _ _) as [[b1 pos1]|] eqn:Hr; [|done].
      apply randint_range in Hr as [Hr _]. apply IH. by right.
    + intros [= <- <-]. split; [done|]. by destruct Hb.
Qed.

Lemma loop_inv_initial nodes edges : loop_inv nodes edges (initial nodes edges).
Proof.
  destruct (initial_graph nodes edges) as [Hn He]. split.
  - split.
    + rewrite Hn. apply NoDup_range1.
    + rewrite He. apply NoDup_nil_2.
    + intros a b. rewrite He. intros Hab. by apply elem_of_nil in Hab.
    + intros a b. rewrite He. intros Hab. by apply elem_of_nil in Hab.
  - by apply acyclic_no_edges.
  - done.
  - intros a b. rewrite He. intros Hab. by apply elem_of_nil in Hab.
  - unfold nx.number_of_edges. rewrite He. simpl. lia.
  - simpl. lia.
Qed.

Lemma loop_inv_body fuel nodes edges rng st st' :
  loop_inv nodes edges st → 0 < edges_left st →
  loop_body fuel nodes rng st = Returns st' →
  loop_inv nodes edges st'.
Proof.
  intros [Hwf Hac Hnodes Hself Hcount Hleft] Hpos. unfold loop_body.
  destruct (randint _ _ _ _) as [[a pos]|] eqn:Ha; [|done].
  apply randint_range in Ha as [Ha _].
  destruct (redraw _ _ _ _ _ _) as [[b pos']| |] eqn:Hb; [|done..].
  apply redraw_spec in Hb as [Hne Hb]; [|by left].
  assert (Ha' : a ∈ nx.nodes (graph st))
    by (rewrite Hnodes; apply elem_of_range1; lia).
  assert (Hb' : b ∈ nx.nodes (graph st))
    by (rewrite Hnodes; apply elem_of_range1; lia).
  pose proof (wf_add_edge a b _ Hwf) as Hwf1.
  pose proof (nodes_add_edge_present a b _ Ha' Hb') as Hn1.
  destruct (Sequencer.is_directed_acyclic_graph _) eqn:Hdag.
  - intros [= <-]. apply is_directed_acyclic_graph_spec in Hdag; [|done].
    split; simpl; try done.
    + congruence.
    + intros x y [?|Hxy]%edges_add_edge; [by simplify_eq|by apply Hself].
    + unfold nx.number_of_edges in *.
      destruct (edges_add_edge_cases a b (graph st)) as [[_ ->]|[_ ->]];
        rewrite ?length_app; simpl; lia.
    + lia.
  - destruct (nx.remove_edge _ _ _) as [G'|] eqn:Hrm; [|done].
    intros [= <-]. pose proof (wf_remove_edge _ _ _ _ Hwf1 Hrm) as Hwf2.
    unfold nx.remove_edge in Hrm. case_decide; [|done].
    injection Hrm as <-.
    assert (Hsub : ∀ e, e ∈ filter (λ e, e ≠ (a, b))
                          (nx.edges (nx.add_edge a b (graph st))) →
                        e ∈ nx.edges (graph st)).
    { intros e [Hne' [Heq|He]%edges_add_edge]%list_elem_of_filter;
        [by destruct Hne'|done]. }
    split; simpl; try done.
    + by apply (acyclic_subgraph (graph st)).
    + congruence.
    + intros x y Hxy. by apply Hself, Hsub.
    + unfold nx.number_of_edges in *. simpl.
      assert (length (filter (λ e, e ≠ (a, b))
                (nx.edges (nx.add_edge a b (graph st))))
              ≤ length (nx.edges (graph st)))%nat; [|lia].
      apply submseteq_length, NoDup_submseteq; [|done].
      apply NoDup_filter, Hwf1.
Qed.

Lemma held_loop_inv rng nodes edges st :
  held rng nodes edges st → loop_inv nodes edges st.
Proof.
  induction 1; [apply loop_inv_initial|by eapply loop_inv_body].
Qed.

Lemma random_dag_loop_held fuel rng nodes edges st G :
  held rng nodes edges st →
  random_dag_loop fuel nodes rng st = Returns G →
  ∃ st', held rng nodes edges st' ∧ graph st' = G ∧ edges_left st' ≤ 0.
Proof.
  revert st. induction fuel as [|fuel IH]; intros st Hst; simpl.
  - case_decide; [done|]. intros [= <-]. exists st. split; [done|].
    split; [done|lia].
  - case_decide.
    + destruct (loop_body _ _ _ _) as [st1| |] eqn:Hbody; [|done..].
      apply IH. by eapply held_iteration.
    + intros [= <-]. exists st. split; [done|]. split; [done|lia].
Qed.

Lemma random_dag_held fuel rng nodes edges G :
  random_dag fuel rng nodes edges = Returns G →
  ∃ st, held rng nodes edges st ∧ graph st = G ∧ edges_left st ≤ 0.
Proof. apply random_dag_loop_held, held_initial. Qed.

(** What a returned graph is known to satisfy. *)
Lemma random_dag_returns fuel rng nodes edges G :
  random_dag fuel rng nodes edges = Returns G →
  nx.wf G ∧ nx.acyclic G ∧ nx.nodes G = Py.range1 nodes
  ∧ (0 ≤ edges → Z.of_nat (nx.number_of_edges G) ≤ edges).
Proof.
  intros (st & Hst & <- & Hleft)%random_dag_held.
  apply held_loop_inv in Hst as [Hwf Hac Hnodes Hself Hcount Hnn].
  split; [done|]. split; [done|]. split; [done|].
  intros He. specialize (Hnn He). lia.
Qed.

Lemma filter_all {A} (P : A → Prop) `{!∀ x, Decision (P x)} (l : list A) :
  (∀ x, x ∈ l → P x) → filter P l = l.
Proof.
  induction l as [|x l IH]; intros Hl; [done|].
  rewrite filter_cons_True by (apply Hl; left).
  f_equal. apply IH. intros y Hy. apply Hl. by right.
Qed.

(** An iteration either keeps the candidate edge and counts it, or
    finds the graph cyclic and puts it back as it was. *)
Lemma loop_body_cases fuel nodes edges rng st st' :
  loop_inv nodes edges st →
  loop_body fuel nodes rng st = Returns st' →
  (edges_left st' = edges_left st - 1
   ∧ Sequencer.is_directed_acyclic_graph (graph st') = true)
  ∨ (edges_left st' = edges_left st ∧ graph st' = graph st).
Proof.
  intros [Hwf Hac Hnodes Hself Hcount Hleft]. unfold loop_body.
  destruct (randint _ _ _ _) as [[a pos]|] eqn:Ha; [|done].
  apply randint_range in Ha as [Ha _].
  destruct (redraw _ _ _ _ _ _) as [[b pos']| |] eqn:Hb; [|done..].
  apply redraw_spec in Hb as [Hne Hb]; [|by left].
  destruct (Sequencer.is_directed_acyclic_graph _) eqn:Hdag.
  - intros [= <-]. left. done.
  - destruct (nx.remove_edge _ _ _) as [G'|] eqn:Hrm; [|done].
    intros [= <-]. right. split; [done|]. simpl.
    unfold nx.remove_edge in Hrm. case_decide; [|done].
    injection Hrm as <-.
    assert (Ha' : a ∈ nx.nodes (graph st))
      by (rewrite Hnodes; apply elem_of_range1; lia).
    assert (Hb' : b ∈ nx.nodes (graph st))
      by (rewrite Hnodes; apply elem_of_range1; lia).
    rewrite (nodes_add_edge_present a b _ Ha' Hb').
    destruct (edges_add_edge_cases a b (graph st)) as [[Hin He]|[Hnin He]].
    + exfalso.
      assert (Hsame : nx.add_edge a b (graph st) = graph st).
      { unfold nx.add_edge.
        rewrite (add_node_present a _ Ha'), (add_node_present b _ Hb').
        by rewrite decide_True. }
      rewrite Hsame in Hdag.
      apply (is_directed_acyclic_graph_spec _ Hwf) in Hac. congruence.
    + rewrite He, filter_app, filter_all.
      * rewrite filter_cons_False by (intros Hf; by apply Hf).
        rewrite app_nil_r. by destruct (graph st).
      * intros e He' ->. done.
Qed.

End random_dag.

(** ** The submission loop *)

Lemma lookup_all_ok (results : gmap node DagDeps.AsyncResult) ns :
  (∀ n, n ∈ ns → is_Some (results !! n)) →
  ∃ deps, DagDeps.lookup_all results ns = inr deps.
Proof.
  induction ns as [|n ns IH]; intros Hns; simpl; [eauto|].
  destruct (Hns n) as [r ->]; [left|].
  destruct IH as [deps ->]; [|eauto].
  intros m Hm. apply Hns. by right.
Qed.

Lemma submit_loop_ok G order (results : gmap node DagDeps.AsyncResult) next :
  (∀ i n, order !! i = Some n → ∀ p, nx.edge G p n →
          is_Some (results !! p) ∨ ∃ j, (j < i)%nat ∧ order !! j = Some p) →
  ∃ results',
    DagDeps.submit_loop G order results next = inr results'
    ∧ ∀ n, is_Some (results' !! n) ↔ is_Some (results !! n) ∨ n ∈ order.
Proof.
  revert results next.
  induction order as [|n order IH]; intros results next Hord; simpl.
  - exists results. split; [done|]. intros n. split; [auto|].
    intros [?|Hn]; [done|]. by apply elem_of_nil in Hn.
  - destruct (lookup_all_ok results (nx.predecessors G n)) as [deps ->].
    { intros p Hp%elem_of_predecessors.
      destruct (Hord 0%nat n eq_refl p Hp) as [?|(j & Hj & _)]; [done|lia]. }
    destruct (IH (<[n := {| DagDeps.msg_id := next;
                            DagDeps.after := DagDeps.msg_id <$> deps |}]>
                    results) (S next)) as (results' & -> & Hdom).
    { intros i m Hm p Hp.
      destruct (Hord (S i) m Hm p Hp) as [Hin|(j & Hj & Hjp)].
      - left. rewrite lookup_insert. case_decide; [eauto|done].
      - destruct j as [|j]; simpl in Hjp.
        + left. injection Hjp as ->. rewrite lookup_insert_eq. eauto.
        + right. exists j. split; [lia|done]. }
    exists results'. split; [done|]. intros m. rewrite Hdom.
    rewrite lookup_insert, elem_of_cons.
    destruct (decide (n = m)) as [->|Hne].
    + split; [auto|]. intros _. left. eauto.
    + split; [tauto|]. intros [?|[?|?]]; [tauto|by subst|tauto].
Qed.

Lemma precedes_lookup l a b i :
  NoDup l → Sequencer.precedes l a b → l !! i = Some b →
  ∃ j, (j < i)%nat ∧ l !! j = Some a.
Proof.
  intros Hl (j & k & Hj & Hk & Hjk) Hi.
  assert (k = i) as -> by (by eapply NoDup_lookup). eauto.
Qed.

Lemma submit_prefix_ok G order l1 n l2 :
  NoDup order → (∀ a b, nx.edge G a b → Sequencer.precedes order a b) →
  order = l1 ++ n :: l2 →
  ∃ submitted,
    DagDeps.submit_loop G l1 ∅ 0 = inr submitted
    ∧ ∀ p, nx.edge G p n → is_Some (submitted !! p).
Proof.
  intros Hnd Hprec ->.
  destruct (submit_loop_ok G l1 ∅ 0) as (submitted & Hres & Hdom).
  { intros i m Hi p Hp. right.
    destruct (precedes_lookup (l1 ++ n :: l2) p m i Hnd (Hprec p m Hp))
      as (j & Hj & Hjp); [by apply lookup_app_l_Some|].
    exists j. split; [done|].
    rewrite lookup_app_l in Hjp; [done|].
    apply lookup_lt_Some in Hi. lia. }
  exists submitted. split; [done|]. intros p Hp.
  apply Hdom. right.
  destruct (precedes_lookup (l1 ++ n :: l2) p n (length l1) Hnd (Hprec p n Hp))
    as (j & Hj & Hjp).
  { rewrite lookup_app_r by lia. by rewrite Nat.sub_diag. }
  rewrite lookup_app_l in Hjp by done.
  apply list_elem_of_lookup. eauto.
Qed.

(** C6: for a well-formed acyclic graph the topological sequence
    exists, holds every node of the graph exactly once, and places the
    source of every edge before its target; so when the submission loop
    reaches a node, the loop has run without error over the nodes before
    it and the results hold a handle for each of its direct
    predecessors; the whole loop raises no [KeyError] and leaves a
    handle for every node. *)
Theorem topological_submission (G : nx.DiGraph) :
  nx.wf G → nx.acyclic G →
  ∃ order,
    Sequencer.topological_sort G = Some order
    ∧ NoDup order ∧ order ≡ₚ nx.nodes G
    ∧ (∀ a b, nx.edge G a b → Sequencer.precedes order a b)
    ∧ (∀ l1 n l2, order = l1 ++ n :: l2 →
         ∃ submitted,
           DagDeps.submit_loop G l1 ∅ 0 = inr submitted
           ∧ ∀ p, nx.edge G p n → is_Some (submitted !! p))
    ∧ ∃ results,
        DagDeps.submit_all G = inr results
        ∧ ∀ n, is_Some (results !! n) ↔ n ∈ nx.nodes G.
Proof.
  intros HG Hac.
  destruct (sequence_complete G HG Hac) as [order Horder].
  destruct (sequence_sound G order HG Horder) as (Hnd & Hperm & Hprec).
  exists order. split; [done|]. split; [done|]. split; [done|].
  split; [done|]. split.
  { intros l1 n l2. by apply submit_prefix_ok. }
  destruct (submit_loop_ok G order ∅ 0) as (results & Hres & Hdom).
  { intros i n Hi p Hp. right.
    by apply (precedes_lookup order p n i Hnd (Hprec p n Hp)). }
  exists results. split.
  - unfold DagDeps.submit_all, Sequencer.topological_sort. by rewrite Horder.
  - intros n. rewrite Hdom, lookup_empty, Hperm. split; [|auto].
    intros [[? ?]|?]; done.
Qed.

Lemma sample_dag_wf : nx.wf DagDeps.sample_dag.
Proof. repeat apply wf_add_edge. apply wf_empty. Qed.

Lemma sample_dag_acyclic : nx.acyclic DagDeps.sample_dag.
Proof.
  apply is_directed_acyclic_graph_spec; [apply sample_dag_wf|].
  vm_compute. reflexivity.
Qed.

Lemma topological_submission_witness :
  nx.wf DagDeps.sample_dag ∧ nx.acyclic DagDeps.sample_dag ∧
  ∃ order,
    Sequencer.topological_sort DagDeps.sample_dag = Some order
    ∧ NoDup order ∧ order ≡ₚ nx.nodes DagDeps.sample_dag
    ∧ (∀ a b, nx.edge DagDeps.sample_dag a b →
              Sequencer.precedes order a b)
    ∧ (∀ l1 n l2, order = l1 ++ n :: l2 →
         ∃ submitted,
           DagDeps.submit_loop DagDeps.sample_dag l1 ∅ 0 = inr submitted
           ∧ ∀ p, nx.edge DagDeps.sample_dag p n →
                  is_Some (submitted !! p))
    ∧ ∃ results,
        DagDeps.submit_all DagDeps.sample_dag = inr results
        ∧ ∀ n, is_Some (results !! n) ↔ n ∈ nx.nodes DagDeps.sample_dag.
Proof.
  split; [apply sample_dag_wf|]. split; [apply sample_dag_acyclic|].
  apply (topological_submission DagDeps.sample_dag);
    [apply sample_dag_wf|apply sample_dag_acyclic].
Defined.

(** C4: [random_dag] never holds a cyclic graph: after every iteration
    of the edge-adding loop the held graph is acyclic, an iteration
    whose candidate edge closes a cycle puts the graph back as it was
    before the loop continues, and the graph that is returned has no
    cycle and a topological order. *)
Theorem random_dag_always_acyclic (rng : nat → Z) (nodes edges : Z) :
  (∀ st, DagDeps.held rng nodes edges st →
         nx.acyclic (DagDeps.graph st))
  ∧ (∀ fuel st st',
       DagDeps.held rng nodes edges st →
       DagDeps.loop_body fuel nodes rng st = DagDeps.Returns st' →
       Sequencer.is_directed_acyclic_graph (DagDeps.graph st') = true
       ∨ DagDeps.graph st' = DagDeps.graph st)
  ∧ (∀ fuel G,
       DagDeps.random_dag fuel rng nodes edges = DagDeps.Returns G →
       nx.acyclic G ∧ is_Some (Sequencer.topological_sort G)).
Proof.
  split; [|split].
  - intros st Hst. by apply held_loop_inv in Hst as [].
  - intros fuel st st' Hst Hbody. apply held_loop_inv in Hst.
    destruct (loop_body_cases fuel nodes edges rng st st' Hst Hbody)
      as [[_ ?]|[_ ?]]; auto.
  - intros fuel G HG. apply random_dag_returns in HG as (Hwf & Hac & _).
    split; [done|]. by apply sequence_complete.
Qed.

(** C8: a graph returned by [random_dag] has no self-loop, because the
    inner loop leaves only with a target that differs from the
    source. *)
Theorem random_dag_no_self_loop (fuel : nat) (rng : nat → Z)
    (nodes edges : Z) (G : nx.DiGraph) :
  DagDeps.random_dag fuel rng nodes edges = DagDeps.Returns G →
  ∀ a b, (a, b) ∈ nx.edges G → a ≠ b.
Proof.
  intros (st & Hst & <- & _)%random_dag_held.
  by apply held_loop_inv in Hst as [].
Qed.

Lemma random_dag_no_self_loop_witness :
  DagDeps.random_dag 10 (DagDeps.tape [0; 1; 1; 1; 2; 0]) 3 2
  = DagDeps.Returns {| nx.nodes := [0; 1; 2]; nx.edges := [(0, 1); (1, 2)] |}
  ∧ ∀ a b, (a, b) ∈ [(0, 1); (1, 2)] → a ≠ b.
Proof.
  split; [vm_compute; reflexivity|].
  apply (random_dag_no_self_loop 10 (DagDeps.tape [0; 1; 1; 1; 2; 0]) 3 2
           {| nx.nodes := [0; 1; 2]; nx.edges := [(0, 1); (1, 2)] |}).
  vm_compute. reflexivity.
Defined.

(** C5: drawing an edge that the graph already holds is counted as a
    new edge.  When [randint] keeps returning 0 then 1,
    [random_dag(3, 2)] returns an acyclic graph with three nodes and one
    edge, not two, and [random_dag(32, 128)] an acyclic graph with 32
    nodes and one edge, not 128. *)
Theorem random_dag_counts_duplicates :
  (∃ G, DagDeps.random_dag 10 (DagDeps.tape [0; 1]) 3 2 = DagDeps.Returns G
        ∧ nx.number_of_nodes G = 3%nat
        ∧ nx.number_of_edges G = 1%nat
        ∧ nx.acyclic G)
  ∧ (∃ G, DagDeps.random_dag 200 (DagDeps.tape [0; 1]) 32 128
          = DagDeps.Returns G
          ∧ nx.number_of_nodes G = 32%nat
          ∧ nx.number_of_edges G = 1%nat
          ∧ nx.acyclic G).
Proof.
  split.
  - eexists. split; [vm_compute; reflexivity|].
    split; [done|]. split; [done|].
    eapply (random_dag_returns 10 (DagDeps.tape [0; 1]) 3 2).
    vm_compute. reflexivity.
  - eexists. split; [vm_compute; reflexivity|].
    split; [done|]. split; [done|].
    eapply (random_dag_returns 200 (DagDeps.tape [0; 1]) 32 128).
    vm_compute. reflexivity.
Qed.

(** ** The scheduler *)

Section scheduler.
Import Scheduler.

Example scenario_A :
  (λ st, states_of st [0; 1; 2; 3; 4]) <$>
    run_events DagDeps.sample_dag all_success (λ _, true)
      (init DagDeps.sample_dag)
      [Start 0; Complete 0; Start 2; Start 1; Complete 1; Start 4;
       Complete 2; Start 3; Complete 4; Complete 3]
  = Some [Succeeded; Succeeded; Succeeded; Succeeded; Succeeded].
Proof. vm_compute. reflexivity. Qed.

Example scenario_B :
  (λ st, states_of st [0; 1; 2; 3; 4]) <$>
    run_events DagDeps.sample_dag all_success (λ n, bool_decide (n ≠ 0))
      (init DagDeps.sample_dag)
      [Start 0; Complete 0; Propagate 1; Propagate 2]
  = Some [Failed; Unreachable; Unreachable; Unreachable; Unreachable].
Proof. vm_compute. reflexivity. Qed.

Example scenario_C :
  (λ st, states_of st [0; 1; 2; 3; 4]) <$>
    run_events DagDeps.sample_dag all_success (λ n, bool_decide (n ≠ 1))
      (init DagDeps.sample_dag)
      [Start 0; Complete 0; Start 1; Start 2; Complete 1; Complete 2]
  = Some [Succeeded; Failed; Succeeded; Unreachable; Unreachable].
Proof. vm_compute. reflexivity. Qed.

Example scenario_D :
  (λ st, states_of st [0; 1; 2; 3; 4]) <$>
    run_events DagDeps.sample_dag all_success (λ n, bool_decide (n ≠ 2))
      (init DagDeps.sample_dag)
      [Start 0; Complete 0; Start 1; Start 2; Complete 2; Complete 1;
       Start 4; Complete 4]
  = Some [Succeeded; Succeeded; Failed; Unreachable; Succeeded].
Proof. vm_compute. reflexivity. Qed.


Lemma forallb_elem_of {A} (f : A → bool) (l : list A) :
  forallb f l = true ↔ ∀ x, x ∈ l → f x = true.
Proof.
  induction l as [|y l IH]; simpl.
  - split; [|done]. intros _ x Hx. by apply elem_of_nil in Hx.
  - rewrite andb_true_iff, IH. split.
    + intros [Hy Hl] x [->|Hx]%elem_of_cons; auto.
    + intros Hall. split; [apply Hall; left|].
      intros x Hx. apply Hall. by right.
Qed.


(** *** The propagator only moves [Pending] successors *)

Lemma decide_successor_cases G policy tr c s X :
  decide_successor G policy tr c s = Some X →
  X = Ready
  ∨ (X = Unreachable ∧ policy s = ALL_SUCCESS
     ∧ failed_or_unreachable (tr !!! c) = true).
Proof.
  unfold decide_successor. destruct (policy s).
  - destruct (failed_or_unreachable _) eqn:Hbad.
    + intros [= <-]. auto.
    + destruct (forallb _ _); [|done]. intros [= <-]. auto.
  - destruct (existsb _ _); [|done]. intros [= <-]. auto.
  - destruct (forallb _ _); [|done]. intros [= <-]. auto.
  - destruct (existsb _ _); [|done]. intros [= <-]. auto.
Qed.

Lemma resolve_one_cases G policy c tr s :
  resolve_one G policy c tr s = tr
  ∨ (tr !!! s = Pending
     ∧ ∃ X, decide_successor G policy tr c s = Some X
            ∧ resolve_one G policy c tr s = <[s := X]> tr).
Proof.
  unfold resolve_one. destruct (tr !!! s) eqn:Hs; auto.
  destruct (decide_successor _ _ _ _ _) as [X|]; eauto.
Qed.

Lemma resolve_one_lookup G policy c tr s n :
  resolve_one G policy c tr s !!! n = tr !!! n
  ∨ (tr !!! n = Pending
     ∧ (resolve_one G policy c tr s !!! n = Ready
        ∨ (resolve_one G policy c tr s !!! n = Unreachable
           ∧ n = s ∧ policy n = ALL_SUCCESS
           ∧ failed_or_unreachable (tr !!! c) = true))).
Proof.
  destruct (resolve_one_cases G policy c tr s) as [->|(Hs & X & HX & ->)];
    [by left|].
  destruct (decide (s = n)) as [->|Hne].
  - rewrite lookup_total_insert_eq. right. split; [done|].
    apply decide_successor_cases in HX as [->|(-> & ? & ?)]; auto.
  - rewrite lookup_total_insert_ne by done. by left.
Qed.

Lemma resolve_one_keeps G policy c tr s n :
  tr !!! n ≠ Pending → resolve_one G policy c tr s !!! n = tr !!! n.
Proof.
  intros Hn. by destruct (resolve_one_lookup G policy c tr s n) as [?|[? _]].
Qed.

Lemma foldl_resolve_one_keeps G policy c l tr n :
  tr !!! n ≠ Pending →
  foldl (resolve_one G policy c) tr l !!! n = tr !!! n.
Proof.
  revert tr. induction l as [|s l IH]; intros tr Hn; [done|]. simpl.
  rewrite IH; rewrite resolve_one_keeps; done.
Qed.

Lemma foldl_resolve_one_lookup G policy c l tr n :
  foldl (resolve_one G policy c) tr l !!! n = tr !!! n
  ∨ (tr !!! n = Pending
     ∧ (foldl (resolve_one G policy c) tr l !!! n = Ready
        ∨ foldl (resolve_one G policy c) tr l !!! n = Unreachable)).
Proof.
  revert tr. induction l as [|s l IH]; intros tr; [by left|]. simpl.
  destruct (resolve_one_lookup G policy c tr s n) as [Heq|(Hp & Hnew)].
  - rewrite <-Heq. apply IH.
  - right. split; [done|].
    rewrite foldl_resolve_one_keeps; [tauto|].
    destruct Hnew as [->|[-> _]]; done.
Qed.

Lemma resolve_keeps G policy c tr n :
  tr !!! n ≠ Pending → resolve G policy c tr !!! n = tr !!! n.
Proof. apply foldl_resolve_one_keeps. Qed.

Lemma resolve_lookup G policy c tr n :
  resolve G policy c tr !!! n = tr !!! n
  ∨ (tr !!! n = Pending
     ∧ (resolve G policy c tr !!! n = Ready
        ∨ resolve G policy c tr !!! n = Unreachable)).
Proof. apply foldl_resolve_one_lookup. Qed.

(** *** Invariants of a run under the default policy *)

Lemma insert_keeps_terminal (tr : gmap node TaskState) s X p :
  is_terminal (tr !!! s) = false → is_terminal (tr !!! p) = true →
  <[s := X]> tr !!! p = tr !!! p.
Proof.
  intros Hs Hp. apply lookup_total_insert_ne. intros ->. congruence.
Qed.

Lemma tracker_inv_update G jobFn tr s X :
  tracker_inv G jobFn tr →
  is_terminal (tr !!! s) = false →
  (X = Succeeded →
     jobFn s = true ∧ ∀ p, nx.edge G p s → tr !!! p = Succeeded) →
  (X = Failed →
     jobFn s = false ∧ ∀ p, nx.edge G p s → tr !!! p = Succeeded) →
  (X = Ready ∨ X = Running → ∀ p, nx.edge G p s → tr !!! p = Succeeded) →
  (X = Unreachable →
     (∃ p, nx.edge G p s ∧ failed_or_unreachable (tr !!! p) = true)
     ∧ (∃ f, tc (nx.edge G) f s ∧ tr !!! f = Failed)) →
  X ≠ Pending →
  tracker_inv G jobFn (<[s := X]> tr).
Proof.
  intros [Hsucc Hfail Hact Hunr] Hs HS HF HA HU HP.
  assert (Hkeep : ∀ p Y, tr !!! p = Y → is_terminal Y = true →
                         <[s := X]> tr !!! p = Y).
  { intros p Y <- HY. by apply insert_keeps_terminal. }
  assert (Hcases : ∀ n, (n = s ∧ <[s := X]> tr !!! n = X)
                        ∨ (n ≠ s ∧ <[s := X]> tr !!! n = tr !!! n)).
  { intros n. destruct (decide (n = s)) as [->|Hne].
    - left. by rewrite lookup_total_insert_eq.
    - right. by rewrite lookup_total_insert_ne. }
  split.
  - intros n Hn. destruct (Hcases n) as [[-> Heq]|[Hne Heq]];
      rewrite Heq in Hn.
    + destruct (HS Hn) as [Hj Hp]. split; [done|].
      intros p Hps. by apply Hkeep; [apply Hp|].
    + destruct (Hsucc n Hn) as [Hj Hp]. split; [done|].
      intros p Hpn. by apply Hkeep; [apply Hp|].
  - intros n Hn. destruct (Hcases n) as [[-> Heq]|[Hne Heq]];
      rewrite Heq in Hn.
    + destruct (HF Hn) as [Hj Hp]. split; [done|].
      intros p Hps. by apply Hkeep; [apply Hp|].
    + destruct (Hfail n Hn) as [Hj Hp]. split; [done|].
      intros p Hpn. by apply Hkeep; [apply Hp|].
  - intros n Hn p Hpn. destruct (Hcases n) as [[-> Heq]|[Hne Heq]];
      rewrite Heq in Hn.
    + by apply Hkeep; [apply HA|].
    + by apply Hkeep; [apply (Hact n)|].
  - intros n Hn. destruct (Hcases n) as [[-> Heq]|[Hne Heq]];
      rewrite Heq in Hn.
    + destruct (HU Hn) as [(p & Hp & Hbad) (f & Hf & Hff)]. split.
      * exists p. split; [done|]. rewrite insert_keeps_terminal; [done..|].
        by destruct (tr !!! p).
      * exists f. split; [done|]. by apply Hkeep.
    + destruct (Hunr n Hn) as [(p & Hp & Hbad) (f & Hf & Hff)]. split.
      * exists p. split; [done|]. rewrite insert_keeps_terminal; [done..|].
        by destruct (tr !!! p).
      * exists f. split; [done|]. by apply Hkeep.
Qed.

Lemma resolve_one_inv G jobFn c tr s :
  tracker_inv G jobFn tr → nx.edge G c s →
  tracker_inv G jobFn (resolve_one G all_success c tr s).
Proof.
  intros Hinv Hcs.
  destruct (resolve_one_cases G all_success c tr s)
    as [->|(Hs & X & HX & ->)]; [done|].
  unfold decide_successor, all_success in HX.
  destruct (failed_or_unreachable (tr !!! c)) eqn:Hbad.
  - injection HX as <-.
    apply tracker_inv_update; try done; try (by intros [?|?]);
      [by rewrite Hs|].
    intros _. split; [by exists c|].
    destruct (tr !!! c) eqn:Hc; try done.
    + exists c. split; [by apply tc_once|done].
    + destruct (ti_unreachable _ _ _ Hinv c Hc) as [_ (f & Hf & Hff)].
      exists f. split; [|done]. by eapply tc_r.
  - destruct (forallb _ _) eqn:Hall; [|done]. injection HX as <-.
    apply tracker_inv_update; try done; [by rewrite Hs|].
    intros _ p Hp.
    rewrite forallb_elem_of in Hall.
    specialize (Hall p (proj2 (elem_of_predecessors G p s) Hp)).
    by destruct (tr !!! p).
Qed.

Lemma resolve_inv G jobFn c tr :
  tracker_inv G jobFn tr → tracker_inv G jobFn (resolve G all_success c tr).
Proof.
  unfold resolve.
  assert (Hl : ∀ s, s ∈ nx.successors G c → nx.edge G c s)
    by (intros s; apply elem_of_successors).
  revert tr Hl. generalize (nx.successors G c) as l.
  induction l as [|s l IH]; intros tr Hl Hinv; [done|]. simpl.
  apply IH.
  - intros s' Hs'. apply Hl. by right.
  - apply resolve_one_inv; [done|]. apply Hl. left.
Qed.

Lemma init_lookup G n :
  (tracker (init G) !!! n = Ready ∧ nx.predecessors G n = [])
  ∨ tracker (init G) !!! n = Pending.
Proof.
  unfold init. simpl. rewrite lookup_total_alt.
  generalize (nx.nodes G) as l. induction l as [|x l IH]; [by right|].
  simpl. rewrite lookup_insert. case_decide; [subst|done]. simpl.
  destruct (nx.predecessors G n); auto.
Qed.

Lemma init_lookup_node G n :
  n ∈ nx.nodes G →
  tracker (init G) !!! n
  = match nx.predecessors G n with [] => Ready | _ => Pending end.
Proof.
  unfold init. simpl. rewrite lookup_total_alt.
  generalize (nx.nodes G) as l. induction l as [|x l IH]; intros Hn.
  - by apply elem_of_nil in Hn.
  - simpl. rewrite lookup_insert. case_decide; [by subst|].
    apply elem_of_cons in Hn as [->|Hn]; [done|]. auto.
Qed.

Lemma state_inv_init G jobFn : state_inv G jobFn (init G).
Proof.
  split.
  - split; intros n Hn;
      destruct (init_lookup G n) as [[Hr Hp]|Hr]; rewrite Hr in Hn;
      try done; try (by destruct Hn).
    intros p Hpn. apply elem_of_predecessors in Hpn. rewrite Hp in Hpn.
    by apply elem_of_nil in Hpn.
  - intros n t Hn. simpl in Hn. by rewrite lookup_empty in Hn.
  - intros n c Hn. simpl in Hn. by rewrite lookup_empty in Hn.
  - intros n Hn. destruct (init_lookup G n) as [[Hr _]|Hr];
      rewrite Hr in Hn; by destruct Hn.
Qed.

Lemma state_inv_resolve G jobFn c st :
  state_inv G jobFn st →
  state_inv G jobFn
    {| tracker := resolve G all_success c (tracker st);
       startedAt := startedAt st; completedAt := completedAt st;
       now := now st |}.
Proof.
  intros [Htr Hst Hco Hdone]. split; simpl.
  - by apply resolve_inv.
  - intros n t Hn. destruct (Hst n t Hn) as (Hs & Ht & Hp).
    rewrite resolve_keeps by (by destruct Hs as [->|[->| ->]]). done.
  - intros n c' Hn. destruct (Hco n c' Hn) as (Hs & Hc).
    rewrite resolve_keeps by (by destruct Hs as [->| ->]). done.
  - intros n Hn. apply Hdone.
    destruct (resolve_lookup G all_success c (tracker st) n)
      as [<-|[_ [Hr|Hr]]]; [done|..]; rewrite Hr in Hn; by destruct Hn.
Qed.

Lemma recordTransition_Some tr n X tr' :
  recordTransition tr n X = Some tr' →
  allowed (tr !!! n) X = true ∧ tr' = <[n := X]> tr.
Proof.
  unfold recordTransition. destruct (allowed _ _); [|done].
  by intros [= <-].
Qed.

Lemma state_inv_step G jobFn st ev st' :
  state_inv G jobFn st →
  step G all_success jobFn st ev = Some st' →
  state_inv G jobFn st'.
Proof.
  intros Hinv. pose proof Hinv as [Htr Hst Hco Hdone].
  destruct ev as [dt|n|n|n]; simpl.
  - case_decide; [|done]. intros [= <-]. split; simpl; [done|..|done].
    + intros n t Hn. destruct (Hst n t Hn) as (Hs & Ht & Hp).
      split; [done|]. split; [lia|done].
    + intros n c Hn. destruct (Hco n c Hn) as (Hs & Hc). split; [done|lia].
  - destruct (forallb _ _); [|done].
    destruct (recordTransition _ _ _) as [tr'|] eqn:Hrec; [|done].
    simpl. intros [= <-].
    apply recordTransition_Some in Hrec as [Hal ->].
    assert (Hn : tracker st !!! n = Ready)
      by (destruct (tracker st !!! n); done).
    assert (Hother : ∀ m, m ≠ n →
              <[n := Running]> (tracker st) !!! m = tracker st !!! m)
      by (intros m Hm; by rewrite lookup_total_insert_ne).
    split; simpl.
    + apply tracker_inv_update; try done; [by rewrite Hn|].
      intros _. apply (ti_active _ _ _ Htr n). by left.
    + intros m t. destruct (decide (m = n)) as [->|Hne].
      * rewrite lookup_insert_eq, lookup_total_insert_eq. intros [= <-].
        split; [by left|]. split; [lia|]. intros p Hp.
        assert (Hps : tracker st !!! p = Succeeded)
          by (apply (ti_active _ _ _ Htr n); auto).
        destruct (Hdone p) as [c Hc]; [by left|].
        exists c. split; [done|]. by apply (Hco p c).
      * rewrite lookup_insert_ne, Hother by done. apply Hst.
    + intros m c Hm. destruct (Hco m c Hm) as (Hs & Hc).
      rewrite Hother; [done|]. intros ->. rewrite Hn in Hs. by destruct Hs.
    + intros m Hm. apply Hdone. destruct (decide (m = n)) as [->|Hne].
      * rewrite lookup_total_insert_eq in Hm. by destruct Hm.
      * by rewrite Hother in Hm.
  - destruct (recordTransition _ _ _) as [tr'|] eqn:Hrec; [|done].
    simpl. intros [= <-].
    apply recordTransition_Some in Hrec as [Hal ->].
    assert (Hn : tracker st !!! n = Running)
      by (destruct (tracker st !!! n), (jobFn n); done).
    set (X := if jobFn n then Succeeded else Failed) in *.
    assert (HX : (X = Succeeded ∧ jobFn n = true)
                 ∨ (X = Failed ∧ jobFn n = false))
      by (unfold X; destruct (jobFn n); auto).
    assert (Hother : ∀ m, m ≠ n →
              <[n := X]> (tracker st) !!! m = tracker st !!! m)
      by (intros m Hm; by rewrite lookup_total_insert_ne).
    refine (state_inv_resolve G jobFn n
              {| tracker := <[n := X]> (tracker st);
                 startedAt := startedAt st;
                 completedAt := <[n := now st]> (completedAt st);
                 now := now st |} _).
    assert (Hpreds : ∀ p, nx.edge G p n → tracker st !!! p = Succeeded)
      by (apply (ti_active _ _ _ Htr n); auto).
    split; simpl.
    + apply tracker_inv_update.
      * done.
      * by rewrite Hn.
      * intros HS. split; [|done].
        destruct HX as [[_ ?]|[? _]]; [done|congruence].
      * intros HF. split; [|done].
        destruct HX as [[? _]|[_ ?]]; [congruence|done].
      * intros [?|?]; destruct HX as [[? _]|[? _]]; congruence.
      * intros ?; destruct HX as [[? _]|[? _]]; congruence.
      * destruct HX as [[? _]|[? _]]; congruence.
    + intros m t Hm. destruct (Hst m t Hm) as (Hs & Ht & Hp).
      split; [|split; [done|]].
      * destruct (decide (m = n)) as [->|Hne].
        -- rewrite lookup_total_insert_eq.
           destruct HX as [[-> _]|[-> _]]; auto.
        -- by rewrite Hother.
      * intros p Hpm. destruct (Hp p Hpm) as (c & Hc & Hct).
        exists c. split; [|done]. rewrite lookup_insert_ne; [done|].
        intros <-. destruct (Hco n c Hc) as [Hs' _].
        rewrite Hn in Hs'. by destruct Hs'.
    + intros m c. destruct (decide (m = n)) as [->|Hne].
      * rewrite lookup_insert_eq, lookup_total_insert_eq. intros [= <-].
        split; [|lia]. destruct HX as [[-> _]|[-> _]]; auto.
      * rewrite lookup_insert_ne, Hother by done. apply Hco.
    + intros m Hm. destruct (decide (m = n)) as [->|Hne].
      * rewrite lookup_insert_eq. eauto.
      * rewrite lookup_insert_ne by done. apply Hdone.
        by rewrite Hother in Hm.
  - case_decide; [|done]. intros [= <-].
    exact (state_inv_resolve G jobFn n st Hinv).
Qed.

Lemma state_inv_run G jobFn evs st st' :
  state_inv G jobFn st →
  run_events G all_success jobFn st evs = Some st' →
  state_inv G jobFn st'.
Proof.
  revert st. induction evs as [|ev evs IH]; intros st Hinv; simpl.
  - by intros [= <-].
  - destruct (step _ _ _ _ _) as [st1|] eqn:Hstep; [|done]. simpl.
    apply IH. by eapply state_inv_step.
Qed.

Lemma reachable_inv G jobFn st :
  reachable G all_success jobFn st → state_inv G jobFn st.
Proof. intros [evs Hrun]. eapply state_inv_run, Hrun. apply state_inv_init. Qed.

(** *** Where a completed run ends *)

Lemma completed_cases G jobFn st n :
  completed_run G all_success jobFn st → n ∈ nx.nodes G →
  ((∀ p, nx.edge G p n → tracker st !!! p = Succeeded) →
   tracker st !!! n = if jobFn n then Succeeded else Failed)
  ∧ (∀ p, nx.edge G p n → tracker st !!! p ≠ Succeeded →
     tracker st !!! n = Unreachable).
Proof.
  intros [Hreach Hall] Hn.
  apply reachable_inv in Hreach as [[Hsucc Hfail Hact Hunr] _ _ _].
  unfold allTerminal in Hall. rewrite forallb_elem_of in Hall.
  specialize (Hall n Hn).
  destruct (tracker st !!! n) eqn:Hs; try done.
  - destruct (Hsucc n Hs) as [-> Hp]. split; [done|].
    intros p Hpn Hne. by destruct Hne; apply Hp.
  - destruct (Hfail n Hs) as [-> Hp]. split; [done|].
    intros p Hpn Hne. by destruct Hne; apply Hp.
  - split; [|done]. intros Hp.
    destruct (Hunr n Hs) as [(p & Hpn & Hbad) _].
    rewrite (Hp p Hpn) in Hbad. done.
Qed.



Lemma run_events_agree G policy jobFn jobFn' evs st :
  (∀ n, Complete n ∈ evs → jobFn n = jobFn' n) →
  run_events G policy jobFn st evs = run_events G policy jobFn' st evs.
Proof.
  revert st. induction evs as [|ev evs IH]; intros st Hagree; [done|].
  simpl.
  assert (Hstep : step G policy jobFn st ev = step G policy jobFn' st ev).
  { destruct ev as [| |n|]; try done. simpl.
    by rewrite (Hagree n) by (by left). }
  rewrite Hstep. destruct (step G policy jobFn' st ev); simpl; [|done].
  apply IH. intros n Hn. apply Hagree. by right.
Qed.

(** The final states of the 5-node sample graph, whatever the order of
    events. *)
Lemma sample_dag_final jobFn st :
  completed_run DagDeps.sample_dag all_success jobFn st →
  states_of st [0; 1; 2; 3; 4]
  = [ if jobFn 0 then Succeeded else Failed;
      if jobFn 0 then if jobFn 1 then Succeeded else Failed
      else Unreachable;
      if jobFn 0 then if jobFn 2 then Succeeded else Failed
      else Unreachable;
      if jobFn 0 && jobFn 1 && jobFn 2
      then if jobFn 3 then Succeeded else Failed else Unreachable;
      if jobFn 0 && jobFn 1
      then if jobFn 4 then Succeeded else Failed else Unreachable ].
Proof.
  intros Hrun.
  assert (Hedge : ∀ a b, nx.edge DagDeps.sample_dag a b ↔
            (a, b) ∈ [(0, 1); (0, 2); (1, 3); (2, 3); (1, 4)])
    by (intros a b; unfold nx.edge; by rewrite sample_dag_edges).
  assert (Hc : ∀ n, n ∈ [0; 1; 2; 3; 4] →
    ((∀ p, nx.edge DagDeps.sample_dag p n → tracker st !!! p = Succeeded) →
     tracker st !!! n = if jobFn n then Succeeded else Failed)
    ∧ (∀ p, nx.edge DagDeps.sample_dag p n → tracker st !!! p ≠ Succeeded →
       tracker st !!! n = Unreachable)).
  { intros n Hn. apply completed_cases; [done|]. by rewrite sample_dag_nodes. }
  destruct (Hc 0) as [H0 _]; [elem_here|].
  destruct (Hc 1) as [H1a H1b]; [elem_here|].
  destruct (Hc 2) as [H2a H2b]; [elem_here|].
  destruct (Hc 3) as [H3a H3b]; [elem_here|].
  destruct (Hc 4) as [H4a H4b]; [elem_here|].
  clear Hc. unfold states_of. simpl.
  assert (Hs0 : tracker st !!! 0 = if jobFn 0 then Succeeded else Failed).
  { apply H0. intros p Hp%Hedge. elem_inv Hp. }
  assert (Hs1 : tracker st !!! 1
                = if jobFn 0 then if jobFn 1 then Succeeded else Failed
                  else Unreachable).
  { destruct (jobFn 0).
    - apply H1a. intros p Hp%Hedge. elem_inv Hp. done.
    - apply (H1b 0); [apply Hedge; elem_here|]. by rewrite Hs0. }
  assert (Hs2 : tracker st !!! 2
                = if jobFn 0 then if jobFn 2 then Succeeded else Failed
                  else Unreachable).
  { destruct (jobFn 0).
    - apply H2a. intros p Hp%Hedge. elem_inv Hp. done.
    - apply (H2b 0); [apply Hedge; elem_here|]. by rewrite Hs0. }
  assert (Hs3 : tracker st !!! 3
                = if jobFn 0 && jobFn 1 && jobFn 2
                  then if jobFn 3 then Succeeded else Failed
                  else Unreachable).
  { destruct (jobFn 0), (jobFn 1), (jobFn 2); simpl;
      try (apply (H3b 1); [apply Hedge; elem_here|]; by rewrite Hs1);
      try (apply (H3b 2); [apply Hedge; elem_here|]; by rewrite Hs2).
    apply H3a. intros p Hp%Hedge. elem_inv Hp; done. }
  assert (Hs4 : tracker st !!! 4
                = if jobFn 0 && jobFn 1
                  then if jobFn 4 then Succeeded else Failed
                  else Unreachable).
  { destruct (jobFn 0), (jobFn 1); simpl;
      try (apply (H4b 1); [apply Hedge; elem_here|]; by rewrite Hs1).
    apply H4a. intros p Hp%Hedge. elem_inv Hp. done. }
  by rewrite Hs0, Hs1, Hs2, Hs3, Hs4.
Qed.

Lemma sample_dag_completes jobFn jobFn' evs :
  (∀ n, Complete n ∈ evs → jobFn n = jobFn' n) →
  (allTerminal DagDeps.sample_dag <$>
     run_events DagDeps.sample_dag all_success jobFn'
       (init DagDeps.sample_dag) evs) = Some true →
  ∃ st, completed_run DagDeps.sample_dag all_success jobFn st.
Proof.
  intros Hagree Hrun.
  destruct (run_events _ _ jobFn' _ _) as [st|] eqn:Hst; [|done].
  exists st. split.
  - exists evs. by rewrite (run_events_agree _ _ jobFn jobFn').
  - by injection Hrun.
Qed.



Lemma only_fails_bool_decide f :
  only_fails f (λ n, bool_decide (n ≠ f)).
Proof.
  intros n. rewrite bool_decide_eq_false. split; [apply dec_stable|].
  intros -> Hne. done.
Qed.

(** *** Timestamps *)

Lemma starts_after_predecessors G jobFn st a b t :
  reachable G all_success jobFn st →
  nx.edge G a b → startedAt st !! b = Some t →
  ∃ c, completedAt st !! a = Some c ∧ c ≤ t.
Proof.
  intros Hreach Hab Hb. apply reachable_inv in Hreach as [_ Hst _ _].
  destruct (Hst b t Hb) as (_ & _ & Hp). by apply Hp.
Qed.

Lemma trace_results_lookup G st n :
  n ∈ nx.nodes G →
  trace_results G st !! n
  = Some {| Validate.started := startedAt st !! n;
            Validate.completed := completedAt st !! n |}.
Proof.
  unfold trace_results. generalize (nx.nodes G) as l.
  induction l as [|x l IH]; intros Hn; [by apply elem_of_nil in Hn|].
  simpl. rewrite lookup_insert. case_decide; [by subst|].
  apply elem_of_cons in Hn as [->|Hn]; [done|]. auto.
Qed.

Lemma fully_recorded_nodes G st :
  nx.wf G →
  (∀ n, n ∈ nx.nodes G →
        is_Some (startedAt st !! n) ∧ is_Some (completedAt st !! n)) →
  Validate.fully_recorded (trace_world G st).
Proof.
  intros HG Hrec n Hn.
  assert (Hn' : n ∈ nx.nodes G).
  { destruct Hn as [Hn|(c & _ & Hn)]; [done|].
    apply elem_of_predecessors in Hn. by eapply nx.wf_src. }
  destruct (Hrec n Hn') as [[s Hs] [f Hf]]. exists s, f. simpl.
  by rewrite trace_results_lookup, Hs, Hf.
Qed.

Lemma starts_too_early_trace G st n p :
  nx.wf G →
  Validate.starts_too_early (trace_world G st) n p ↔
  nx.edge G p n ∧ ∃ s f, startedAt st !! n = Some s
                         ∧ completedAt st !! p = Some f ∧ ¬ f < s.
Proof.
  intros HG. unfold Validate.starts_too_early. simpl.
  rewrite elem_of_predecessors. split.
  - intros (Hn & Hpn & mn & mp & s & f & Hmn & Hs & Hmp & Hf & Hlt).
    split; [done|]. exists s, f.
    rewrite trace_results_lookup in Hmn by done.
    rewrite trace_results_lookup in Hmp by (by eapply nx.wf_src).
    simplify_eq/=. done.
  - intros (Hpn & s & f & Hs & Hf & Hlt).
    split; [by eapply nx.wf_dst|]. split; [done|].
    eexists _, _, s, f.
    rewrite (trace_results_lookup G st n) by (by eapply nx.wf_dst).
    rewrite (trace_results_lookup G st p) by (by eapply nx.wf_src).
    split; [reflexivity|]. split; [done|]. split; [reflexivity|]. done.
Qed.

(** *** Applying the propagator twice *)











(** *** The order of the timestamps, whatever the policies *)

Lemma decide_successor_strict G policy tr c s :
  decide_successor G policy tr c s = Some Ready →
  policy s = ALL_SUCCESS →
  ∀ p, nx.edge G p s → tr !!! p = Succeeded.
Proof.
  unfold decide_successor. intros Hdec Hpol. rewrite Hpol in Hdec.
  destruct (failed_or_unreachable _); [done|].
  destruct (forallb _ _) eqn:Hall; [|done].
  intros p Hp. apply elem_of_predecessors in Hp.
  rewrite forallb_elem_of in Hall. specialize (Hall p Hp).
  by destruct (tr !!! p).
Qed.

Lemma resolve_one_strict G policy c tr s :
  strict_inv G policy tr → strict_inv G policy (resolve_one G policy c tr s).
Proof.
  intros Hinv.
  destruct (resolve_one_cases G policy c tr s) as [->|(Hs & X & HX & ->)];
    [done|].
  assert (Hkeep : ∀ p, tr !!! p = Succeeded → <[s := X]> tr !!! p = Succeeded).
  { intros p Hp. rewrite lookup_total_insert_ne; [done|].
    intros <-. congruence. }
  intros n Hpol Hn1 Hn2 p Hp. apply Hkeep.
  destruct (decide (n = s)) as [->|Hne].
  - rewrite lookup_total_insert_eq in Hn1, Hn2.
    apply (decide_successor_strict G policy tr c s); [|done..].
    by destruct (decide_successor_cases _ _ _ _ _ _ HX) as [->|[-> _]].
  - rewrite lookup_total_insert_ne in Hn1, Hn2 by done.
    by apply (Hinv n).
Qed.

Lemma resolve_strict G policy c tr :
  strict_inv G policy tr → strict_inv G policy (resolve G policy c tr).
Proof.
  unfold resolve. generalize (nx.successors G c) as l. intros l. revert tr.
  induction l as [|s l IH]; intros tr Hinv; [done|].
  simpl. by apply IH, resolve_one_strict.
Qed.

Lemma order_inv_init G policy : order_inv G policy (init G).
Proof.
  split.
  - intros n t Hn. simpl in Hn. by rewrite lookup_empty in Hn.
  - intros n c Hn. simpl in Hn. by rewrite lookup_empty in Hn.
  - intros n Hn. destruct (init_lookup G n) as [[Hr _]|Hr];
      rewrite Hr in Hn; by destruct Hn.
  - intros n _ Hn _ p Hp.
    destruct (init_lookup G n) as [[_ Hnone]|Hr]; [|done].
    apply elem_of_predecessors in Hp. rewrite Hnone in Hp.
    by apply elem_of_nil in Hp.
Qed.

Lemma terminal_not_pending (X : TaskState) :
  is_terminal X = true → X ≠ Pending.
Proof. by destruct X. Qed.

Lemma order_inv_resolve G policy c st :
  order_inv G policy st →
  order_inv G policy
    {| tracker := resolve G policy c (tracker st);
       startedAt := startedAt st; completedAt := completedAt st;
       now := now st |}.
Proof.
  intros [Hst Hco Hdone Hstrict]. split; simpl.
  - intros n t Hn. destruct (Hst n t Hn) as (Hs & Ht & Hp).
    rewrite resolve_keeps by (by destruct Hs as [->|[->| ->]]).
    split; [done|]. split; [done|]. intros p Hpn.
    destruct (Hp p Hpn) as [Hterm Hle].
    by rewrite resolve_keeps by (by apply terminal_not_pending).
  - intros n c' Hn. destruct (Hco n c' Hn) as (Hs & Hc).
    rewrite resolve_keeps by (by destruct Hs as [->| ->]). done.
  - intros n Hn. apply Hdone.
    destruct (resolve_lookup G policy c (tracker st) n)
      as [<-|[_ [Hr|Hr]]]; [done|..]; rewrite Hr in Hn; by destruct Hn.
  - by apply resolve_strict.
Qed.

Lemma order_inv_step G policy jobFn st ev st' :
  order_inv G policy st →
  step G policy jobFn st ev = Some st' →
  order_inv G policy st'.
Proof.
  intros Hinv. pose proof Hinv as [Hst Hco Hdone Hstrict].
  destruct ev as [dt|n|n|n]; simpl.
  - case_decide; [|done]. intros [= <-]. split; simpl; [..|done|done].
    + intros n t Hn. destruct (Hst n t Hn) as (Hs & Ht & Hp).
      split; [done|]. split; [lia|done].
    + intros n c Hn. destruct (Hco n c Hn) as (Hs & Hc). split; [done|lia].
  - destruct (forallb _ _) eqn:Hgate; [|done].
    destruct (recordTransition _ _ _) as [tr'|] eqn:Hrec; [|done].
    simpl. intros [= <-].
    apply recordTransition_Some in Hrec as [Hal ->].
    assert (Hn : tracker st !!! n = Ready)
      by (destruct (tracker st !!! n); done).
    assert (Hother : ∀ m, m ≠ n →
              <[n := Running]> (tracker st) !!! m = tracker st !!! m)
      by (intros m Hm; by rewrite lookup_total_insert_ne).
    assert (Hterm : ∀ p, is_terminal (tracker st !!! p) = true → p ≠ n)
      by (intros p Hp ->; by rewrite Hn in Hp).
    rewrite forallb_elem_of in Hgate.
    split; simpl.
    + intros m t. destruct (decide (m = n)) as [->|Hne].
      * rewrite lookup_insert_eq, lookup_total_insert_eq. intros [= <-].
        split; [by left|]. split; [lia|]. intros p Hp.
        assert (Hpt : is_terminal (tracker st !!! p) = true)
          by (by apply Hgate, elem_of_predecessors).
        rewrite Hother by (by apply Hterm). split; [done|].
        intros c Hc. by apply (Hco p c).
      * rewrite lookup_insert_ne, Hother by done. intros Hm.
        destruct (Hst m t Hm) as (Hs & Ht & Hp).
        split; [done|]. split; [done|]. intros p Hpm.
        destruct (Hp p Hpm) as [Hpt Hle].
        by rewrite Hother by (by apply Hterm).
    + intros m c Hm. destruct (Hco m c Hm) as (Hs & Hc).
      rewrite Hother; [done|]. intros ->. rewrite Hn in Hs. by destruct Hs.
    + intros m Hm. apply Hdone. destruct (decide (m = n)) as [->|Hne].
      * rewrite lookup_total_insert_eq in Hm. by destruct Hm.
      * by rewrite Hother in Hm.
    + intros m Hpol Hm1 Hm2 p Hp.
      assert (Hps : tracker st !!! p = Succeeded).
      { apply (Hstrict m Hpol); [| |done].
        - destruct (decide (m = n)) as [->|Hne]; [by rewrite Hn|].
          by rewrite Hother in Hm1.
        - destruct (decide (m = n)) as [->|Hne]; [by rewrite Hn|].
          by rewrite Hother in Hm2. }
      rewrite Hother; [done|]. apply Hterm. by rewrite Hps.
  - destruct (recordTransition _ _ _) as [tr'|] eqn:Hrec; [|done].
    simpl. intros [= <-].
    apply recordTransition_Some in Hrec as [Hal ->].
    assert (Hn : tracker st !!! n = Running)
      by (destruct (tracker st !!! n), (jobFn n); done).
    set (X := if jobFn n then Succeeded else Failed) in *.
    assert (HX : X = Succeeded ∨ X = Failed)
      by (unfold X; destruct (jobFn n); auto).
    assert (Hother : ∀ m, m ≠ n →
              <[n := X]> (tracker st) !!! m = tracker st !!! m)
      by (intros m Hm; by rewrite lookup_total_insert_ne).
    assert (Hterm : ∀ p, is_terminal (tracker st !!! p) = true → p ≠ n)
      by (intros p Hp ->; by rewrite Hn in Hp).
    refine (order_inv_resolve G policy n
              {| tracker := <[n := X]> (tracker st);
                 startedAt := startedAt st;
                 completedAt := <[n := now st]> (completedAt st);
                 now := now st |} _).
    split; simpl.
    + intros m t Hm. destruct (Hst m t Hm) as (Hs & Ht & Hp).
      split; [|split; [done|]].
      * destruct (decide (m = n)) as [->|Hne].
        -- rewrite lookup_total_insert_eq. destruct HX as [-> | ->]; auto.
        -- by rewrite Hother.
      * intros p Hpm. destruct (Hp p Hpm) as [Hpt Hle].
        rewrite Hother, lookup_insert_ne by (by apply Hterm || (intros <-; by apply (Hterm n))).
        done.
    + intros m c. destruct (decide (m = n)) as [->|Hne].
      * rewrite lookup_insert_eq, lookup_total_insert_eq. intros [= <-].
        split; [|lia]. destruct HX as [-> | ->]; auto.
      * rewrite lookup_insert_ne, Hother by done. apply Hco.
    + intros m Hm. destruct (decide (m = n)) as [->|Hne].
      * rewrite lookup_insert_eq. eauto.
      * rewrite lookup_insert_ne by done. apply Hdone.
        by rewrite Hother in Hm.
    + intros m Hpol Hm1 Hm2 p Hp.
      assert (Hps : tracker st !!! p = Succeeded).
      { apply (Hstrict m Hpol); [| |done].
        - destruct (decide (m = n)) as [->|Hne]; [by rewrite Hn|].
          by rewrite Hother in Hm1.
        - destruct (decide (m = n)) as [->|Hne]; [by rewrite Hn|].
          by rewrite Hother in Hm2. }
      rewrite Hother; [done|]. apply Hterm. by rewrite Hps.
  - case_decide; [|done]. intros [= <-].
    exact (order_inv_resolve G policy n st Hinv).
Qed.

Lemma order_inv_run G policy jobFn evs st st' :
  order_inv G policy st →
  run_events G policy jobFn st evs = Some st' →
  order_inv G policy st'.
Proof.
  revert st. induction evs as [|ev evs IH]; intros st Hinv; simpl.
  - by intros [= <-].
  - destruct (step _ _ _ _ _) as [st1|] eqn:Hstep; [|done]. simpl.
    apply IH. by eapply order_inv_step.
Qed.

Lemma reachable_order_inv G policy jobFn st :
  reachable G policy jobFn st → order_inv G policy st.
Proof.
  intros [evs Hrun]. eapply order_inv_run, Hrun. apply order_inv_init.
Qed.

Lemma starts_after_dependencies G policy jobFn st a b t :
  reachable G policy jobFn st →
  nx.edge G a b → startedAt st !! b = Some t →
  is_terminal (tracker st !!! a) = true
  ∧ (∀ c, completedAt st !! a = Some c → c ≤ t)
  ∧ (tracker st !!! a ≠ Unreachable ∨ policy b = ALL_SUCCESS →
     ∃ c, completedAt st !! a = Some c ∧ c ≤ t).
Proof.
  intros Hreach Hab Hb.
  apply reachable_order_inv in Hreach as [Hst Hco Hdone Hstrict].
  destruct (Hst b t Hb) as (Hbs & _ & Hp).
  destruct (Hp a Hab) as [Hterm Hle].
  split; [done|]. split; [done|]. intros Hran.
  assert (Ha : tracker st !!! a = Succeeded ∨ tracker st !!! a = Failed).
  { destruct Hran as [Hran|Hpol].
    - destruct (tracker st !!! a); auto; done.
    - left. apply (Hstrict b Hpol); [..|done];
        by destruct Hbs as [->|[->| ->]]. }
  destruct (Hdone a Ha) as [c Hc]. exists c. split; [done|]. by apply Hle.
Qed.

(** Under [ANY_SUCCESS] a node can be [Ready] while one of its
    dependencies still runs; it is not started before that dependency is
    done. *)
Example start_waits_for_dependencies :
  ∃ st, run_events any_dag any_policy (λ _, true) (init any_dag)
          [Start 0; Start 1; Complete 0] = Some st
        ∧ states_of st [0; 1; 2] = [Succeeded; Running; Ready]
        ∧ step any_dag any_policy (λ _, true) st (Start 2) = None
        ∧ (λ st', states_of st' [0; 1; 2]) <$>
            run_events any_dag any_policy (λ _, true) st
              [Complete 1; Start 2; Complete 2]
          = Some [Succeeded; Succeeded; Succeeded].
Proof.
  destruct (run_events any_dag any_policy (λ _, true) (init any_dag)
              [Start 0; Start 1; Complete 0]) as [st|] eqn:Hst;
    [|by vm_compute in Hst].
  exists st. split; [done|].
  vm_compute in Hst. injection Hst as <-. by vm_compute.
Qed.

End scheduler.

(** C1: in every trace of a run, whatever the dependency policies of
    the nodes, for every edge [(a, b)] whose target has started, [a] has
    reached a terminal state and no completion time recorded for [a] is
    later than the start time of [b]; [a] has a recorded completion time
    unless it is [Unreachable], which it never is when [b] has the
    default [ALL_SUCCESS] policy.  The check of [validate_tree] asks for
    strictly more: on a fully recorded trace it passes exactly when, in
    addition, no task starts at the very instant at which one of its
    predecessors completes. *)
Theorem dependency_order (G : nx.DiGraph)
    (policy : node → Scheduler.DependencyPolicy) (jobFn : node → bool)
    (st : Scheduler.State) :
  nx.wf G →
  Scheduler.reachable G policy jobFn st →
  (∀ a b t, nx.edge G a b → Scheduler.startedAt st !! b = Some t →
            Scheduler.is_terminal (Scheduler.tracker st !!! a) = true
            ∧ (∀ c, Scheduler.completedAt st !! a = Some c → c ≤ t)
            ∧ (Scheduler.tracker st !!! a ≠ Scheduler.Unreachable
               ∨ policy b = Scheduler.ALL_SUCCESS →
               ∃ c, Scheduler.completedAt st !! a = Some c ∧ c ≤ t))
  ∧ (Validate.fully_recorded (Scheduler.trace_world G st) →
     ((Validate.validate_tree (Scheduler.trace_world G st)).1 = inr ()
      ↔ ∀ a b t c, nx.edge G a b →
                   Scheduler.startedAt st !! b = Some t →
                   Scheduler.completedAt st !! a = Some c → c ≠ t)).
Proof.
  intros HG Hreach.
  assert (Hle : ∀ a b t c, nx.edge G a b →
                  Scheduler.startedAt st !! b = Some t →
                  Scheduler.completedAt st !! a = Some c → c ≤ t).
  { intros a b t c Hab Hb.
    by apply (starts_after_dependencies G policy jobFn st a b t). }
  split; [intros a b t; by apply (starts_after_dependencies G policy jobFn)|].
  intros Hrec.
  destruct (validate_tree_spec _ Hrec) as [[Hok Hno]|(n & p & Hfail & Hbad)].
  - rewrite Hok. split; [|done]. intros _ a b t c Hab Hb Ha ->.
    apply (Hno b a). apply starts_too_early_trace; [done|].
    split; [done|]. exists t, t. split; [done|]. split; [done|lia].
  - rewrite Hfail. split; [done|]. intros Hne. exfalso.
    apply starts_too_early_trace in Hbad
      as (Hpn & s & f & Hs & Hf & Hlt); [|done].
    pose proof (Hle p n s f Hpn Hs Hf).
    apply (Hne p n s f Hpn Hs Hf). lia.
Qed.

(** A completed run of the sample graph in which the clock does not
    advance between the completion of node 0 and the start of node 1:
    the order of the timestamps holds and [validate_tree] raises. *)
Lemma dependency_order_not_strict :
  ∃ st,
    Scheduler.completed_run DagDeps.sample_dag Scheduler.all_success
      (λ _, true) st
    ∧ Validate.fully_recorded (Scheduler.trace_world DagDeps.sample_dag st)
    ∧ (∀ a b t, nx.edge DagDeps.sample_dag a b →
                Scheduler.startedAt st !! b = Some t →
                ∃ c, Scheduler.completedAt st !! a = Some c ∧ c ≤ t)
    ∧ (Validate.validate_tree
         (Scheduler.trace_world DagDeps.sample_dag st)).1
      = inl (Py.AssertionError 1 0).
Proof.
  destruct (Scheduler.run_events DagDeps.sample_dag Scheduler.all_success
              (λ _, true) (Scheduler.init DagDeps.sample_dag)
              [Scheduler.Start 0; Scheduler.Complete 0; Scheduler.Start 1;
               Scheduler.Start 2; Scheduler.Complete 1; Scheduler.Complete 2;
               Scheduler.Start 3; Scheduler.Start 4; Scheduler.Complete 3;
               Scheduler.Complete 4]) as [st|] eqn:Hst;
    [|by vm_compute in Hst].
  assert (Hreach : Scheduler.reachable DagDeps.sample_dag
                     Scheduler.all_success (λ _, true) st) by (by eexists).
  exists st. split; [|split; [|split]].
  - split; [done|]. vm_compute in Hst. injection Hst as <-.
    vm_compute. reflexivity.
  - apply fully_recorded_nodes; [repeat apply wf_add_edge; apply wf_empty|].
    intros n Hn. vm_compute in Hst. injection Hst as <-.
    rewrite sample_dag_nodes in Hn.
    repeat (apply elem_of_cons in Hn as [->|Hn]; [by vm_compute; eauto|]).
    by apply elem_of_nil in Hn.
  - intros a b t. by apply (starts_after_predecessors _ (λ _, true)).
  - vm_compute in Hst. injection Hst as <-. vm_compute. reflexivity.
Qed.

(** A completed run in which a node that runs whatever the outcome of
    its dependencies ([ALL_DONE]) starts after a dependency that became
    [Unreachable]: that dependency is terminal and never gets a
    completion time. *)
Lemma unreachable_dependency_not_stamped :
  ∃ st t,
    Scheduler.completed_run Scheduler.mixed_dag Scheduler.mixed_policy
      (λ n, bool_decide (n ≠ 0)) st
    ∧ nx.edge Scheduler.mixed_dag 1 2
    ∧ Scheduler.startedAt st !! 2 = Some t
    ∧ Scheduler.tracker st !!! 1 = Scheduler.Unreachable
    ∧ Scheduler.completedAt st !! 1 = None.
Proof.
  destruct (Scheduler.run_events Scheduler.mixed_dag Scheduler.mixed_policy
              (λ n, bool_decide (n ≠ 0)) (Scheduler.init Scheduler.mixed_dag)
              [Scheduler.Start 0; Scheduler.Tick 1; Scheduler.Complete 0;
               Scheduler.Propagate 1; Scheduler.Tick 1; Scheduler.Start 2;
               Scheduler.Tick 1; Scheduler.Complete 2]) as [st|] eqn:Hst;
    [|by vm_compute in Hst].
  exists st, 2. split.
  - split; [by eexists|].
    vm_compute in Hst. injection Hst as <-. by vm_compute.
  - vm_compute in Hst. injection Hst as <-.
    split; [unfold nx.edge; vm_compute; elem_here|].
    split; [by vm_compute|]. split; by vm_compute.
Qed.

(** C3: in the 5-node sample graph with every node under [ALL_SUCCESS],
    if node 0 fails then every run driven to completion (and there is
    one) ends with node 0 [Failed] and nodes 1, 2, 3 and 4
    [Unreachable]. *)
Theorem node_0_fails_all_unreachable (jobFn : node → bool) :
  jobFn 0 = false →
  (∃ st, Scheduler.completed_run DagDeps.sample_dag Scheduler.all_success
           jobFn st)
  ∧ ∀ st, Scheduler.completed_run DagDeps.sample_dag Scheduler.all_success
            jobFn st →
          Scheduler.states_of st [0; 1; 2; 3; 4]
          = [Scheduler.Failed; Scheduler.Unreachable; Scheduler.Unreachable;
             Scheduler.Unreachable; Scheduler.Unreachable].
Proof.
  intros H0. split.
  - apply (sample_dag_completes jobFn (λ n, bool_decide (n ≠ 0))
             [Scheduler.Start 0; Scheduler.Complete 0;
              Scheduler.Propagate 1; Scheduler.Propagate 2]).
    + intros n Hn. apply elem_of_cons in Hn as [Hn|Hn]; [done|].
      apply elem_of_cons in Hn as [Hn|Hn]; [by simplify_eq|].
      apply elem_of_cons in Hn as [Hn|Hn]; [done|].
      apply elem_of_cons in Hn as [Hn|Hn]; [done|].
      by apply elem_of_nil in Hn.
    + vm_compute. reflexivity.
  - intros st Hrun. rewrite (sample_dag_final jobFn st Hrun), H0. done.
Qed.

Lemma node_0_fails_all_unreachable_witness :
  (λ n : node, bool_decide (n ≠ 0)) 0 = false
  ∧ ((∃ st, Scheduler.completed_run DagDeps.sample_dag Scheduler.all_success
              (λ n, bool_decide (n ≠ 0)) st)
     ∧ ∀ st, Scheduler.completed_run DagDeps.sample_dag Scheduler.all_success
               (λ n, bool_decide (n ≠ 0)) st →
             Scheduler.states_of st [0; 1; 2; 3; 4]
             = [Scheduler.Failed; Scheduler.Unreachable;
                Scheduler.Unreachable; Scheduler.Unreachable;
                Scheduler.Unreachable]).
Proof.
  split; [reflexivity|].
  apply (node_0_fails_all_unreachable (λ n, bool_decide (n ≠ 0))).
  reflexivity.
Defined.





Example validate_tree_sample :
  (Validate.validate_tree DagDeps.sample_world).1 = inr ().
Proof. vm_compute. reflexivity. Qed.




Lemma timed_state_reachable :
  Scheduler.reachable DagDeps.sample_dag Scheduler.all_success (λ _, true)
    (Scheduler.timed_state DagDeps.sample_dag).
Proof.
  exists Scheduler.timed_events. unfold Scheduler.timed_state.
  destruct (Scheduler.run_events _ _ _ _ _) eqn:Hrun; [done|].
  by vm_compute in Hrun.
Qed.

Example timed_state_validates :
  (Validate.validate_tree
     (Scheduler.trace_world DagDeps.sample_dag
        (Scheduler.timed_state DagDeps.sample_dag))).1 = inr ().
Proof. vm_compute. reflexivity. Qed.

Lemma dependency_order_witness :
  nx.wf DagDeps.sample_dag
  ∧ Scheduler.reachable DagDeps.sample_dag Scheduler.all_success (λ _, true)
      (Scheduler.timed_state DagDeps.sample_dag)
  ∧ ((∀ a b t, nx.edge DagDeps.sample_dag a b →
        Scheduler.startedAt (Scheduler.timed_state DagDeps.sample_dag) !! b
        = Some t →
        Scheduler.is_terminal
          (Scheduler.tracker (Scheduler.timed_state DagDeps.sample_dag)
             !!! a) = true
        ∧ (∀ c, Scheduler.completedAt
                  (Scheduler.timed_state DagDeps.sample_dag) !! a = Some c →
                c ≤ t)
        ∧ (Scheduler.tracker (Scheduler.timed_state DagDeps.sample_dag)
             !!! a ≠ Scheduler.Unreachable
           ∨ Scheduler.all_success b = Scheduler.ALL_SUCCESS →
           ∃ c, Scheduler.completedAt
                  (Scheduler.timed_state DagDeps.sample_dag) !! a = Some c
                ∧ c ≤ t))
     ∧ (Validate.fully_recorded
          (Scheduler.trace_world DagDeps.sample_dag
             (Scheduler.timed_state DagDeps.sample_dag)) →
        ((Validate.validate_tree
            (Scheduler.trace_world DagDeps.sample_dag
               (Scheduler.timed_state DagDeps.sample_dag))).1 = inr ()
         ↔ ∀ a b t c, nx.edge DagDeps.sample_dag a b →
             Scheduler.startedAt (Scheduler.timed_state DagDeps.sample_dag)
               !! b = Some t →
             Scheduler.completedAt (Scheduler.timed_state DagDeps.sample_dag)
               !! a = Some c → c ≠ t))).
Proof.
  split; [apply sample_dag_wf|]. split; [apply timed_state_reachable|].
  apply (dependency_order DagDeps.sample_dag Scheduler.all_success
           (λ _, true) (Scheduler.timed_state DagDeps.sample_dag));
    [apply sample_dag_wf|apply timed_state_reachable].
Defined.


(** * Further properties of the notebooks' code *)

(** ** [validate_tree]: what each outcome means *)

Section validate_more.
Import Validate ValidateFacts.

Lemma check_node_returns n w :
  (check_node n w).1 = inr () ↔
  is_Some (results w !! n)
  ∧ ∀ p, p ∈ nx.predecessors (graph w) n → ran_after w n p.
Proof.
  unfold check_node, mbind, M_bind, get_metadata, get_predecessors.
  destruct (results w !! n) as [mn|] eqn:Hn; simpl.
  - rewrite for_each_returns by (intros; apply check_parent_read_only).
    split.
    + intros Hall. split; [eauto|]. intros p Hp.
      apply Hall, check_parent_returns in Hp as (mp & s & f & ? & ? & ? & ?).
      by exists mn, mp, s, f.
    + intros [_ Hall] p Hp. apply check_parent_returns.
      destruct (Hall p Hp) as (mn' & mp & s & f & ? & ? & ? & ? & ?).
      simplify_eq. by exists mp, s, f.
  - split; [done|]. by intros [[? ?] _].
Qed.

Lemma check_parent_explains s n p w e w' :
  check_parent s n p w = (inl e, w') →
  (e = Py.KeyError p ∧ results w !! p = None)
  ∨ (e = Py.TypeError
     ∧ ∃ mp, results w !! p = Some mp ∧ (s = None ∨ completed mp = None))
  ∨ (e = Py.AssertionError n p
     ∧ ∃ mp s' f, results w !! p = Some mp ∧ s = Some s'
                  ∧ completed mp = Some f ∧ ¬ f < s').
Proof.
  unfold check_parent, mbind, M_bind, get_metadata.
  destruct (results w !! p) as [mp|] eqn:Hp; [|intros [= <- <-]; auto].
  unfold assert_after. destruct s as [s'|]; [|intros [= <- <-]; eauto 10].
  destruct (completed mp) as [f|] eqn:Hf; [|intros [= <- <-]; eauto 10].
  destruct (Z.ltb_spec f s'); [done|]. intros [= <- <-].
  right; right. split; [done|]. exists mp, s', f.
  split; [done|]. split; [done|]. split; [done|lia].
Qed.

Lemma check_node_explains n w e w' :
  n ∈ nx.nodes (graph w) →
  check_node n w = (inl e, w') → explains w (inl e).
Proof.
  intros Hn. unfold check_node, mbind, M_bind, get_metadata, get_predecessors.
  destruct (results w !! n) as [mn|] eqn:Hmn.
  - intros (p & Hp & Hraise)%for_each_raises;
      [|intros; apply check_parent_read_only].
    apply check_parent_explains in Hraise
      as [[-> Hnone]|[[-> (mp & Hmp & Hmiss)]
                     |[-> (mp & s & f & Hmp & Hs & Hf & Hlt)]]]; simpl.
    + split; [done|]. right. eauto.
    + exists n, p, mn, mp. done.
    + split; [done|]. split; [done|]. by exists mn, mp, s, f.
  - intros [= <- <-]. simpl. auto.
Qed.

End validate_more.

(** X1: [validate_tree] returns normally exactly when every node of the
    graph has a result and, for every node and each of its
    predecessors, both timestamps are recorded and the node started
    strictly after the predecessor completed. *)
Theorem validate_tree_returns_iff (w : Validate.World) :
  (Validate.validate_tree w).1 = inr () ↔
  (∀ n, n ∈ nx.nodes (Validate.graph w) →
        is_Some (Validate.results w !! n))
  ∧ (∀ n p, n ∈ nx.nodes (Validate.graph w) →
            p ∈ nx.predecessors (Validate.graph w) n →
            ValidateFacts.ran_after w n p).
Proof.
  rewrite validate_tree_unfold.
  rewrite for_each_returns by (intros; apply check_node_read_only).
  split.
  - intros Hall. split.
    + intros n Hn. by apply Hall, check_node_returns in Hn as [? _].
    + intros n p Hn Hp. apply Hall, check_node_returns in Hn as [_ Hn]. auto.
  - intros [Hres Hafter] n Hn. apply check_node_returns. auto.
Qed.

(** X2: [validate_tree] raises nothing but [KeyError], [TypeError] and
    [AssertionError]: a [KeyError] names a node, or a predecessor of
    one, that has no result; a [TypeError] comes from a node and a
    predecessor with results of which a compared timestamp is not
    recorded; an [AssertionError] names a node that did not start
    strictly after the named predecessor completed. *)
Theorem validate_tree_explains (w : Validate.World) :
  ValidateFacts.explains w (Validate.validate_tree w).1.
Proof.
  rewrite validate_tree_unfold.
  destruct (Validate.for_each _ _ _) as [[e|[]] w'] eqn:Hrun; [|done].
  apply for_each_raises in Hrun as (n & Hn & Hraise);
    [|intros; apply check_node_read_only].
  by eapply check_node_explains.
Qed.

(** X3: on a graph without edges [validate_tree] compares no timestamp:
    it returns normally exactly when every node has a result, whatever
    the timestamps are, and otherwise raises a [KeyError]. *)
Theorem validate_tree_no_edges (w : Validate.World) :
  nx.edges (Validate.graph w) = [] →
  ((Validate.validate_tree w).1 = inr () ↔
   ∀ n, n ∈ nx.nodes (Validate.graph w) →
        is_Some (Validate.results w !! n))
  ∧ ((Validate.validate_tree w).1 = inr ()
     ∨ ∃ k, (Validate.validate_tree w).1 = inl (Py.KeyError k)
            ∧ k ∈ nx.nodes (Validate.graph w)
            ∧ Validate.results w !! k = None).
Proof.
  intros He.
  assert (Hpred : ∀ n p, p ∉ nx.predecessors (Validate.graph w) n).
  { intros n p Hp. apply elem_of_predecessors in Hp.
    unfold nx.edge in Hp. rewrite He in Hp. by apply elem_of_nil in Hp. }
  split.
  - rewrite validate_tree_unfold.
    rewrite for_each_returns by (intros; apply check_node_read_only).
    split.
    + intros Hall n Hn. by apply Hall, check_node_returns in Hn as [? _].
    + intros Hres n Hn. apply check_node_returns. split; [auto|].
      intros p Hp. by destruct (Hpred n p).
  - rewrite validate_tree_unfold.
    destruct (Validate.for_each _ _ _) as [[e|[]] w'] eqn:Hrun; [|by left].
    right. apply for_each_raises in Hrun as (m & Hm & Hraise);
      [|intros; apply check_node_read_only].
    pose proof (check_node_explains m w e w Hm Hraise) as Hex.
    destruct e as [k| | |n p| |]; simpl in Hex; try done.
    + destruct Hex as [Hnone [Hk|(n & _ & Hk)]]; [eauto|].
      by destruct (Hpred n k).
    + destruct Hex as (n & p & _ & _ & _ & Hp & _). by destruct (Hpred n p).
    + destruct Hex as (_ & Hp & _). by destruct (Hpred n p).
Qed.

Lemma validate_tree_no_edges_witness :
  nx.edges (Validate.graph ValidateFacts.unstamped_world) = []
  ∧ (Validate.validate_tree ValidateFacts.unstamped_world).1 = inr ().
Proof.
  split; [reflexivity|].
  destruct (validate_tree_no_edges ValidateFacts.unstamped_world)
    as [Hiff _]; [reflexivity|].
  apply Hiff. intros n Hn.
  repeat (apply elem_of_cons in Hn as [->|Hn]; [by vm_compute; eauto|]).
  by apply elem_of_nil in Hn.
Defined.

(** ** The submission loop *)

Section submit_more.
Import DagDeps SubmitFacts.

Lemma lookup_all_inv (results : gmap node AsyncResult) ns deps :
  lookup_all results ns = inr deps →
  Forall2 (λ n d, results !! n = Some d) ns deps.
Proof.
  revert deps. induction ns as [|n ns IH]; intros deps; simpl.
  - intros [= <-]. constructor.
  - destruct (results !! n) as [r|] eqn:Hn; [|done].
    destruct (lookup_all results ns) as [e|rs]; [done|].
    intros [= <-]. constructor; auto.
Qed.


Lemma lookup_all_mono (results results' : gmap node AsyncResult) ns deps :
  (∀ k r, results !! k = Some r → results' !! k = Some r) →
  lookup_all results ns = inr deps → lookup_all results' ns = inr deps.
Proof.
  intros Hsub. revert deps. induction ns as [|n ns IH]; intros deps; simpl;
    [done|].
  destruct (results !! n) as [r|] eqn:Hn; [|done].
  rewrite (Hsub n r Hn).
  destruct (lookup_all results ns) as [e|rs]; [done|].
  intros [= <-]. by rewrite (IH rs).
Qed.

Lemma submit_loop_needs G order (results results' : gmap node AsyncResult)
    next :
  submit_loop G order results next = inr results' →
  ∀ i n, order !! i = Some n → ∀ p, nx.edge G p n →
         is_Some (results !! p) ∨ ∃ j, (j < i)%nat ∧ order !! j = Some p.
Proof.
  revert results next.
  induction order as [|m order IH]; intros results next; simpl; [done|].
  destruct (lookup_all results (nx.predecessors G m)) as [e|deps] eqn:Hdeps;
    [done|].
  intros Hrun [|i] n Hi p Hp; simpl in Hi.
  - injection Hi as ->. left.
    apply lookup_all_inv in Hdeps.
    apply elem_of_predecessors in Hp.
    apply list_elem_of_lookup in Hp as [k Hk].
    destruct (Forall2_lookup_l _ _ _ _ _ Hdeps Hk) as (d & _ & Hd). eauto.
  - destruct (IH _ _ Hrun i n Hi p Hp) as [Hin|(j & Hj & Hjp)].
    + rewrite lookup_insert in Hin. case_decide.
      * subst. right. exists 0%nat. split; [lia|done].
      * by left.
    + right. exists (S j). split; [lia|done].
Qed.


(** What the loop leaves, for results that it does not overwrite. *)
Lemma submit_loop_handles G order (results results' : gmap node AsyncResult)
    next :
  NoDup order →
  (∀ n, n ∈ order → results !! n = None) →
  (∀ k r, results !! k = Some r → (msg_id r < next)%nat) →
  submit_loop G order results next = inr results' →
  (∀ k r, results !! k = Some r → results' !! k = Some r)
  ∧ (∀ k r, results' !! k = Some r →
            (msg_id r < next + length order)%nat)
  ∧ ∀ i n, order !! i = Some n →
      ∃ r deps,
        results' !! n = Some r ∧ msg_id r = (next + i)%nat
        ∧ lookup_all results' (nx.predecessors G n) = inr deps
        ∧ after r = msg_id <$> deps
        ∧ Forall (λ d, (d < msg_id r)%nat) (after r).
Proof.
  intros Hnd. revert results next.
  induction Hnd as [|m order Hm Hnd IH]; intros results next Hfresh Hids; simpl.
  - intros [= <-]. split; [done|]. split; [|done].
    intros k r Hk. specialize (Hids k r Hk). lia.
  - destruct (lookup_all results (nx.predecessors G m)) as [e|deps] eqn:Hdeps;
      [done|].
    set (h := {| msg_id := next; after := msg_id <$> deps |}).
    intros Hrun.
    destruct (IH (<[m := h]> results) (S next)) as (Hkeep & Hbound & Hnew);
      [| |done|].
    { intros n Hn. rewrite lookup_insert_ne by (intros ->; done).
      apply Hfresh. by right. }
    { intros k r. rewrite lookup_insert. case_decide.
      - intros [= <-]. simpl. lia.
      - intros Hk. specialize (Hids k r Hk). lia. }
    assert (Hsub : ∀ k r, results !! k = Some r → results' !! k = Some r).
    { intros k r Hk. apply Hkeep. rewrite lookup_insert_ne; [done|].
      intros <-. rewrite Hfresh in Hk; [done|left]. }
    split; [done|]. split.
    { intros k r Hk. specialize (Hbound k r Hk). lia. }
    intros [|i] n Hi; simpl in Hi.
    + injection Hi as <-. exists h, deps.
      split; [apply Hkeep; by rewrite lookup_insert_eq|].
      split; [simpl; lia|].
      split; [by apply (lookup_all_mono results)|]. split; [done|].
      simpl. apply Forall_fmap, Forall_forall. intros d Hd. simpl.
      apply lookup_all_inv in Hdeps.
      apply list_elem_of_lookup in Hd as [k Hk].
      destruct (Forall2_lookup_r _ _ _ _ _ Hdeps Hk) as (p & _ & Hp).
      by apply (Hids p d).
    + destruct (Hnew i n Hi) as (r & deps' & Hr & Hid & Hdeps' & Haft & Hlt).
      exists r, deps'. split; [done|]. split; [lia|]. done.
Qed.

End submit_more.


(** X5: when the loop runs through an order without repetition, the
    task of the [i]-th node of the order has the [i]-th message id, so
    ids are given in submission order and no two tasks share one. *)
Theorem submit_loop_ids (G : nx.DiGraph) (order : list node)
    (results : gmap node DagDeps.AsyncResult) :
  NoDup order →
  DagDeps.submit_loop G order ∅ 0 = inr results →
  (∀ i n, order !! i = Some n →
          ∃ r, results !! n = Some r ∧ DagDeps.msg_id r = i)
  ∧ ∀ n1 n2 r1 r2,
      results !! n1 = Some r1 → results !! n2 = Some r2 →
      DagDeps.msg_id r1 = DagDeps.msg_id r2 → n1 = n2.
Proof.
  intros Hnd Hrun.
  destruct (submit_loop_handles G order ∅ results 0 Hnd) as (_ & _ & Hnew);
    [by intros; apply lookup_empty|intros k r Hk; by rewrite lookup_empty in Hk
    |done|].
  assert (Hids : ∀ i n, order !! i = Some n →
            ∃ r, results !! n = Some r ∧ DagDeps.msg_id r = i).
  { intros i n Hi. destruct (Hnew i n Hi) as (r & deps & Hr & Hid & _).
    exists r. split; [done|]. lia. }
  split; [done|].
  destruct (submit_loop_ok G order ∅ 0) as (results0 & Hrun0 & Hdom).
  { intros i n Hi p Hp. right.
    destruct (submit_loop_needs G order ∅ results 0 Hrun i n Hi p Hp)
      as [[r Hr]|?]; [|done].
    by rewrite lookup_empty in Hr. }
  rewrite Hrun in Hrun0. injection Hrun0 as <-.
  intros n1 n2 r1 r2 H1 H2 Heq.
  assert (Hin : ∀ n r, results !! n = Some r →
            ∃ i, order !! i = Some n ∧ DagDeps.msg_id r = i).
  { intros n r Hr.
    assert (Hn : n ∈ order).
    { destruct (proj1 (Hdom n)) as [[? Hn]|Hn]; [by eauto| |done].
      by rewrite lookup_empty in Hn. }
    apply list_elem_of_lookup in Hn as [i Hi]. exists i. split; [done|].
    destruct (Hids i n Hi) as (r' & Hr' & Hid). by simplify_eq. }
  destruct (Hin n1 r1 H1) as (i1 & Hi1 & Hid1).
  destruct (Hin n2 r2 H2) as (i2 & Hi2 & Hid2).
  assert (i1 = i2) as -> by lia. by simplify_eq.
Qed.

(** X6: when the loop runs through an order without repetition, every
    task is told to run after exactly the tasks of its direct
    predecessors, as the results hold them at the end, and each of these
    was submitted before it. *)
Theorem submit_loop_after (G : nx.DiGraph) (order : list node)
    (results : gmap node DagDeps.AsyncResult) :
  NoDup order →
  DagDeps.submit_loop G order ∅ 0 = inr results →
  ∀ n, n ∈ order →
    ∃ r deps,
      results !! n = Some r
      ∧ DagDeps.lookup_all results (nx.predecessors G n) = inr deps
      ∧ DagDeps.after r = DagDeps.msg_id <$> deps
      ∧ Forall (λ d, (d < DagDeps.msg_id r)%nat) (DagDeps.after r).
Proof.
  intros Hnd Hrun n Hn.
  destruct (submit_loop_handles G order ∅ results 0 Hnd) as (_ & _ & Hnew);
    [by intros; apply lookup_empty|intros k r Hk; by rewrite lookup_empty in Hk
    |done|].
  apply list_elem_of_lookup in Hn as [i Hi].
  destruct (Hnew i n Hi) as (r & deps & Hr & _ & Hdeps & Haft & Hlt).
  by exists r, deps.
Qed.

(** X7: for a well-formed graph, the submission of the whole graph
    leaves results exactly when the graph has no cycle and raises
    [NetworkXUnfeasible] exactly when it has one; it never raises a
    [KeyError]. *)
Theorem submit_all_outcome (G : nx.DiGraph) :
  nx.wf G →
  ((∃ results, DagDeps.submit_all G = inr results) ↔ nx.acyclic G)
  ∧ (DagDeps.submit_all G = inl Py.NetworkXUnfeasible ↔ ¬ nx.acyclic G)
  ∧ ∀ k, DagDeps.submit_all G ≠ inl (Py.KeyError k).
Proof.
  intros HG. unfold DagDeps.submit_all, Sequencer.topological_sort.
  destruct (Sequencer.sequence G) as [order|] eqn:Hseq.
  - destruct (sequence_sound G order HG Hseq) as (Hnd & Hperm & Hprec).
    assert (Hac : nx.acyclic G) by (by eapply topological_order_acyclic).
    destruct (submit_loop_ok G order ∅ 0) as (results & -> & _).
    { intros i n Hi p Hp. right.
      by apply (precedes_lookup order p n i Hnd (Hprec p n Hp)). }
    split; [split; eauto|]. split; [split; done|done].
  - assert (Hcyc : ¬ nx.acyclic G).
    { intros Hac. destruct (sequence_complete G HG Hac) as [? ?]. congruence. }
    split; [split; [by intros [? ?]|done]|]. split; [done|done].
Qed.

Lemma NoDup_0_to_4 : NoDup [0; 1; 2; 3; 4].
Proof. apply (bool_decide_unpack _). by vm_compute. Qed.

Lemma sample_results_run :
  DagDeps.submit_loop DagDeps.sample_dag [0; 1; 2; 3; 4] ∅ 0
  = inr SubmitFacts.sample_results.
Proof. vm_compute. reflexivity. Qed.

Lemma submit_loop_ids_witness :
  NoDup [0; 1; 2; 3; 4]
  ∧ DagDeps.submit_loop DagDeps.sample_dag [0; 1; 2; 3; 4] ∅ 0
    = inr SubmitFacts.sample_results
  ∧ ∃ r, SubmitFacts.sample_results !! 3 = Some r ∧ DagDeps.msg_id r = 3%nat.
Proof.
  split; [apply NoDup_0_to_4|]. split; [apply sample_results_run|].
  destruct (submit_loop_ids DagDeps.sample_dag [0; 1; 2; 3; 4]
              SubmitFacts.sample_results NoDup_0_to_4 sample_results_run)
    as [Hids _].
  by apply (Hids 3%nat 3).
Defined.

Lemma submit_loop_after_witness :
  NoDup [0; 1; 2; 3; 4]
  ∧ DagDeps.submit_loop DagDeps.sample_dag [0; 1; 2; 3; 4] ∅ 0
    = inr SubmitFacts.sample_results
  ∧ ∃ r deps,
      SubmitFacts.sample_results !! 3 = Some r
      ∧ DagDeps.lookup_all SubmitFacts.sample_results
          (nx.predecessors DagDeps.sample_dag 3) = inr deps
      ∧ DagDeps.after r = DagDeps.msg_id <$> deps
      ∧ Forall (λ d, (d < DagDeps.msg_id r)%nat) (DagDeps.after r).
Proof.
  split; [apply NoDup_0_to_4|]. split; [apply sample_results_run|].
  apply (submit_loop_after DagDeps.sample_dag [0; 1; 2; 3; 4]
           SubmitFacts.sample_results NoDup_0_to_4 sample_results_run 3).
  elem_here.
Defined.

Lemma submit_all_outcome_witness :
  nx.wf DagDeps.sample_dag
  ∧ ((∃ results, DagDeps.submit_all DagDeps.sample_dag = inr results)
     ↔ nx.acyclic DagDeps.sample_dag)
  ∧ (DagDeps.submit_all DagDeps.sample_dag = inl Py.NetworkXUnfeasible
     ↔ ¬ nx.acyclic DagDeps.sample_dag)
  ∧ ∀ k, DagDeps.submit_all DagDeps.sample_dag ≠ inl (Py.KeyError k).
Proof.
  split; [apply sample_dag_wf|].
  apply (submit_all_outcome DagDeps.sample_dag), sample_dag_wf.
Defined.

(** ** [random_dag]: edge cases and bounds *)

Section random_dag_more.
Import DagDeps RandomDagFacts.

Lemma randint_empty lo hi rng pos : hi < lo → randint lo hi rng pos = None.
Proof. intros Hlt. unfold randint. by rewrite decide_True. Qed.

Lemma redraw_single_node fuel rng pos :
  redraw fuel 1 rng 0 0 pos = OutOfFuel.
Proof.
  revert pos. induction fuel as [|fuel IH]; intros pos; simpl; [done|].
  replace (0 + rng pos `mod` (1 - 1 - 0 + 1)) with 0; [apply IH|].
  rewrite Z.mod_1_r. lia.
Qed.

Lemma redraw_fuel fuel fuel' nodes rng a b pos o :
  redraw fuel nodes rng a b pos = o → settled o → (fuel ≤ fuel')%nat →
  redraw fuel' nodes rng a b pos = o.
Proof.
  revert fuel' b pos.
  induction fuel as [|fuel IH]; intros fuel' b pos; simpl.
  - case_decide; [by intros <- []|].
    intros <- _ _. destruct fuel'; simpl; by rewrite decide_False.
  - destruct fuel' as [|fuel']; [lia|]. simpl.
    case_decide; [|done].
    destruct (randint _ _ _ _) as [[b' pos']|]; [|done].
    intros Ho Hs Hle. apply IH; [done..|lia].
Qed.

Lemma loop_body_fuel fuel fuel' nodes rng st o :
  loop_body fuel nodes rng st = o → settled o → (fuel ≤ fuel')%nat →
  loop_body fuel' nodes rng st = o.
Proof.
  unfold loop_body.
  destruct (randint _ _ _ _) as [[a pos]|]; [|done].
  destruct (redraw fuel _ _ _ _ _) as [[b pos']|e|] eqn:Hr.
  - intros Ho Hs Hle.
    by rewrite (redraw_fuel fuel fuel' _ _ _ _ _ _ Hr) by done.
  - intros Ho Hs Hle.
    by rewrite (redraw_fuel fuel fuel' _ _ _ _ _ _ Hr) by done.
  - by intros <- [].
Qed.

Lemma random_dag_loop_fuel fuel fuel' nodes rng st o :
  random_dag_loop fuel nodes rng st = o → settled o → (fuel ≤ fuel')%nat →
  random_dag_loop fuel' nodes rng st = o.
Proof.
  revert fuel' st. induction fuel as [|fuel IH]; intros fuel' st; simpl.
  - case_decide; [by intros <- []|].
    intros <- _ _. destruct fuel'; simpl; by rewrite decide_False.
  - destruct fuel' as [|fuel']; [lia|]. simpl.
    case_decide; [|done].
    destruct (loop_body fuel _ _ _) as [st'|e|] eqn:Hbody.
    + intros Ho Hs Hle.
      rewrite (loop_body_fuel fuel fuel' _ _ _ _ Hbody) by (done || lia).
      apply IH; [done..|lia].
    + intros Ho Hs Hle.
      by rewrite (loop_body_fuel fuel fuel' _ _ _ _ Hbody) by (done || lia).
    + by intros <- [].
Qed.

Lemma loop_body_progress fuel nodes edges rng st st' :
  loop_inv nodes edges st →
  loop_body fuel nodes rng st = Returns st' →
  (edges_left st' = edges_left st - 1 ∧ nx.edges (graph st') ≠ [])
  ∨ (edges_left st' = edges_left st ∧ graph st' = graph st).
Proof.
  intros Hinv Hbody.
  destruct (loop_body_cases fuel nodes edges rng st st' Hinv Hbody)
    as [[Hleft _]|?]; [|by right].
  left. split; [done|]. revert Hbody Hleft. unfold loop_body.
  destruct (randint _ _ _ _) as [[a pos]|]; [|done].
  destruct (redraw _ _ _ _ _ _) as [[b pos']| |]; [|done..].
  destruct (Sequencer.is_directed_acyclic_graph _).
  - intros [= <-] _. simpl. intros He.
    assert (Hab : (a, b) ∈ nx.edges (nx.add_edge a b (graph st)))
      by (apply edges_add_edge; by left).
    rewrite He in Hab. by apply elem_of_nil in Hab.
  - destruct (nx.remove_edge _ _ _); [|done]. intros [= <-]. simpl. lia.
Qed.

Lemma held_progress rng nodes edges st :
  held rng nodes edges st →
  edges_left st < edges → nx.edges (graph st) ≠ [].
Proof.
  induction 1 as [|fuel st st' Hheld IH Hpos Hbody].
  - simpl. lia.
  - apply held_loop_inv in Hheld.
    destruct (loop_body_progress fuel nodes edges rng st st' Hheld Hbody)
      as [[_ Hne]|[Hleft Hg]]; [done|].
    rewrite Hleft, Hg. auto.
Qed.

End random_dag_more.

(** X8: when no edge is asked for, [random_dag] returns at once, without
    a draw and whatever the number of nodes: the graph has the nodes
    [range(nodes)] and no edge. *)
Theorem random_dag_no_edges (fuel : nat) (rng : nat → Z) (nodes edges : Z) :
  edges ≤ 0 →
  ∃ G, DagDeps.random_dag fuel rng nodes edges = DagDeps.Returns G
       ∧ nx.nodes G = Py.range1 nodes ∧ nx.edges G = [].
Proof.
  intros Hle. exists (DagDeps.graph (DagDeps.initial nodes edges)).
  split; [|apply initial_graph].
  unfold DagDeps.random_dag. destruct fuel; simpl; by rewrite decide_False by lia.
Qed.

Lemma random_dag_no_edges_witness :
  0 ≤ 0
  ∧ ∃ G, DagDeps.random_dag 0 (λ _, 0) 3 0 = DagDeps.Returns G
         ∧ nx.nodes G = Py.range1 3 ∧ nx.edges G = [].
Proof. split; [lia|]. apply (random_dag_no_edges 0 (λ _, 0) 3 0). lia. Defined.

(** X9: with no node to draw from and an edge asked for, [random_dag]
    raises the [ValueError] of [randint(0, nodes-1)] on its first
    draw. *)
Theorem random_dag_no_nodes (fuel : nat) (rng : nat → Z) (nodes edges : Z) :
  nodes ≤ 0 → 0 < edges →
  DagDeps.random_dag (S fuel) rng nodes edges = DagDeps.Raises Py.ValueError.
Proof.
  intros Hn He. unfold DagDeps.random_dag. simpl.
  rewrite decide_True by done. unfold DagDeps.loop_body.
  by rewrite randint_empty by lia.
Qed.

Lemma random_dag_no_nodes_witness :
  0 ≤ 0 ∧ 0 < 1
  ∧ DagDeps.random_dag 1 (λ _, 0) 0 1 = DagDeps.Raises Py.ValueError.
Proof.
  split; [lia|]. split; [lia|].
  apply (random_dag_no_nodes 0 (λ _, 0) 0 1); lia.
Defined.

(** X10: with a single node and an edge asked for, [random_dag] neither
    returns nor raises, whatever the draws: the inner loop can only draw
    the source again. *)
Theorem random_dag_single_node (fuel : nat) (rng : nat → Z) (edges : Z) :
  0 < edges →
  DagDeps.random_dag fuel rng 1 edges = DagDeps.OutOfFuel.
Proof.
  intros He. unfold DagDeps.random_dag.
  destruct fuel as [|fuel]; simpl; rewrite decide_True by done; [done|].
  unfold DagDeps.loop_body, DagDeps.randint. simpl.
  replace (0 + rng 0%nat `mod` (1 - 1 - 0 + 1)) with 0
    by (rewrite Z.mod_1_r; lia).
  by rewrite redraw_single_node.
Qed.

Lemma random_dag_single_node_witness :
  0 < 2 ∧ DagDeps.random_dag 50 (DagDeps.tape [0; 1]) 1 2 = DagDeps.OutOfFuel.
Proof.
  split; [lia|]. apply (random_dag_single_node 50 (DagDeps.tape [0; 1]) 2). lia.
Defined.

(** X11: a graph returned by [random_dag] has exactly the nodes
    [range(nodes)], every endpoint of its edges is one of them, and when
    at least one edge is asked for it has at least one edge and at most
    the number asked for. *)
Theorem random_dag_bounds (fuel : nat) (rng : nat → Z) (nodes edges : Z)
    (G : nx.DiGraph) :
  DagDeps.random_dag fuel rng nodes edges = DagDeps.Returns G →
  nx.nodes G = Py.range1 nodes
  ∧ (∀ a b, (a, b) ∈ nx.edges G → 0 ≤ a < nodes ∧ 0 ≤ b < nodes)
  ∧ (0 < edges → 1 ≤ Z.of_nat (nx.number_of_edges G) ≤ edges).
Proof.
  intros (st & Hst & <- & Hleft)%random_dag_held.
  pose proof (held_progress rng nodes edges st Hst) as Hprog.
  apply held_loop_inv in Hst as [Hwf Hac Hnodes Hself Hcount Hnn].
  split; [done|]. split.
  - intros a b Hab. split; apply elem_of_range1; rewrite <-Hnodes.
    + by eapply nx.wf_src.
    + by eapply nx.wf_dst.
  - intros He. specialize (Hnn ltac:(lia)). split; [|lia].
    unfold nx.number_of_edges.
    destruct (nx.edges (DagDeps.graph st)); [|simpl; lia].
    exfalso. apply Hprog; [lia|done].
Qed.

Lemma random_dag_bounds_witness :
  DagDeps.random_dag 10 (DagDeps.tape [0; 1; 1; 0; 1; 2]) 3 2
  = DagDeps.Returns {| nx.nodes := [0; 1; 2]; nx.edges := [(0, 1); (1, 2)] |}
  ∧ [0; 1; 2] = Py.range1 3
  ∧ (∀ a b, (a, b) ∈ [(0, 1); (1, 2)] → 0 ≤ a < 3 ∧ 0 ≤ b < 3)
  ∧ (0 < 2 → 1 ≤ Z.of_nat 2 ≤ 2).
Proof.
  split; [vm_compute; reflexivity|].
  apply (random_dag_bounds 10 (DagDeps.tape [0; 1; 1; 0; 1; 2]) 3 2
           {| nx.nodes := [0; 1; 2]; nx.edges := [(0, 1); (1, 2)] |}).
  vm_compute. reflexivity.
Defined.

(** Once [random_dag] has returned a graph or raised with some fuel,
    more fuel changes nothing: what the call does is decided by its
    arguments and the draws alone. *)
Theorem random_dag_fuel (fuel fuel' : nat) (rng : nat → Z) (nodes edges : Z)
    (o : DagDeps.outcome nx.DiGraph) :
  DagDeps.random_dag fuel rng nodes edges = o →
  RandomDagFacts.settled o → (fuel ≤ fuel')%nat →
  DagDeps.random_dag fuel' rng nodes edges = o.
Proof. apply random_dag_loop_fuel. Qed.

Lemma random_dag_fuel_witness :
  DagDeps.random_dag 10 (DagDeps.tape [0; 1; 1; 0; 1; 2]) 3 2
  = DagDeps.Returns {| nx.nodes := [0; 1; 2]; nx.edges := [(0, 1); (1, 2)] |}
  ∧ (10 ≤ 40)%nat
  ∧ DagDeps.random_dag 40 (DagDeps.tape [0; 1; 1; 0; 1; 2]) 3 2
    = DagDeps.Returns {| nx.nodes := [0; 1; 2]; nx.edges := [(0, 1); (1, 2)] |}.
Proof.
  split; [vm_compute; reflexivity|]. split; [lia|].
  apply (random_dag_fuel 10 40 (DagDeps.tape [0; 1; 1; 0; 1; 2]) 3 2);
    [vm_compute; reflexivity|done|lia].
Defined.

Section repeated_draw.
Import DagDeps.

Lemma tape_even k : tape [0; 1] (k * 2) = 0.
Proof.
  unfold tape. change (length [0; 1]) with 2%nat.
  by rewrite Nat.Div0.mod_mul.
Qed.

Lemma tape_odd k : tape [0; 1] (S (k * 2)) = 1.
Proof.
  unfold tape. change (length [0; 1]) with 2%nat.
  replace (S (k * 2)) with (1 + k * 2)%nat by lia.
  by rewrite Nat.Div0.mod_add.
Qed.

Lemma single_edge_acyclic G a b :
  nx.edges G = [(a, b)] → a ≠ b → nx.acyclic G.
Proof.
  intros He Hab.
  assert (Hedge : ∀ x y, nx.edge G x y → x = a ∧ y = b).
  { intros x y Hxy. unfold nx.edge in Hxy. rewrite He in Hxy.
    apply list_elem_of_singleton in Hxy. by simplify_eq. }
  assert (Htc : ∀ x y, tc (nx.edge G) x y → x = a ∧ y = b).
  { induction 1 as [x y Hxy|x y z Hxy _ [-> ->]]; [auto|].
    apply Hedge in Hxy as [_ ?]. done. }
  intros n [-> ?]%Htc. done.
Qed.

Lemma draw_0_1 fuel nodes k :
  2 ≤ nodes →
  randint 0 (nodes - 1) (tape [0; 1]) (k * 2) = Some (0, S (k * 2))
  ∧ redraw (S fuel) nodes (tape [0; 1]) 0 0 (S (k * 2))
    = Returns (1, (S k * 2)%nat).
Proof.
  intros Hn. split.
  - unfold randint. rewrite decide_False by lia.
    rewrite tape_even, Z.mod_0_l by lia. done.
  - simpl. unfold randint. rewrite decide_False by lia.
    rewrite tape_odd, Z.mod_small by lia. simpl.
    destruct fuel; simpl; done.
Qed.

Lemma one_edge_graph nodes edges :
  2 ≤ nodes →
  let G1 := nx.add_edge 0 1 (graph (initial nodes edges)) in
  nx.nodes G1 = Py.range1 nodes ∧ nx.edges G1 = [(0, 1)]
  ∧ nx.add_edge 0 1 G1 = G1
  ∧ Sequencer.is_directed_acyclic_graph G1 = true.
Proof.
  intros Hn G1.
  destruct (initial_graph nodes edges) as [Hnodes Hedges].
  pose proof (li_wf _ _ _ (loop_inv_initial nodes edges)) as Hwf.
  assert (H0 : 0 ∈ nx.nodes (graph (initial nodes edges)))
    by (rewrite Hnodes; apply elem_of_range1; lia).
  assert (H1 : 1 ∈ nx.nodes (graph (initial nodes edges)))
    by (rewrite Hnodes; apply elem_of_range1; lia).
  assert (Hn1 : nx.nodes G1 = Py.range1 nodes)
    by (unfold G1; by rewrite nodes_add_edge_present).
  assert (He1 : nx.edges G1 = [(0, 1)]).
  { unfold G1.
    destruct (edges_add_edge_cases 0 1 (graph (initial nodes edges)))
      as [[Hin _]|[_ ->]]; [|by rewrite Hedges].
    rewrite Hedges in Hin. by apply elem_of_nil in Hin. }
  split; [done|]. split; [done|]. split.
  - assert (H0' : 0 ∈ nx.nodes G1) by (rewrite Hn1, <-Hnodes; done).
    assert (H1' : 1 ∈ nx.nodes G1) by (rewrite Hn1, <-Hnodes; done).
    unfold nx.add_edge at 1.
    rewrite (add_node_present 0 G1 H0'), (add_node_present 1 G1 H1').
    rewrite decide_True; [done|]. rewrite He1. left.
  - apply is_directed_acyclic_graph_spec; [by apply wf_add_edge|].
    by apply (single_edge_acyclic G1 0 1).
Qed.

Lemma loop_body_0_1 fuel nodes edges st k :
  2 ≤ nodes →
  graph st = graph (initial nodes edges)
  ∨ graph st = nx.add_edge 0 1 (graph (initial nodes edges)) →
  rng_pos st = (k * 2)%nat →
  loop_body (S fuel) nodes (tape [0; 1]) st
  = Returns {| graph := nx.add_edge 0 1 (graph (initial nodes edges));
               edges_left := edges_left st - 1;
               rng_pos := (S k * 2)%nat |}.
Proof.
  intros Hn Hg Hpos. unfold loop_body. rewrite Hpos.
  destruct (draw_0_1 fuel nodes k Hn) as [-> ->].
  destruct (one_edge_graph nodes edges Hn) as (_ & _ & Hsame & Hdag).
  destruct Hg as [-> | ->]; [|rewrite Hsame]; by rewrite Hdag.
Qed.

Lemma random_dag_loop_0_1 fuel nodes edges st k :
  2 ≤ nodes →
  graph st = nx.add_edge 0 1 (graph (initial nodes edges)) →
  rng_pos st = (k * 2)%nat →
  (Z.to_nat (edges_left st) < fuel)%nat →
  random_dag_loop fuel nodes (tape [0; 1]) st
  = Returns (nx.add_edge 0 1 (graph (initial nodes edges))).
Proof.
  intros Hn. revert st k.
  induction fuel as [|fuel IH]; intros st k Hg Hpos Hfuel; [lia|].
  simpl. case_decide; [|by rewrite Hg].
  destruct fuel as [|fuel]; [lia|].
  rewrite (loop_body_0_1 fuel nodes edges st k) by auto.
  apply (IH _ (S k)); simpl; [done..|lia].
Qed.

End repeated_draw.

(** X12: for any number of nodes from 2 on and any number of edges from
    1 on, when [randint] keeps returning 0 then 1 the call returns the
    graph with the single edge (0, 1): every later draw of that edge is
    counted as a new edge. *)
Theorem random_dag_repeated_draw (fuel : nat) (nodes edges : Z) :
  2 ≤ nodes → 0 < edges → (Z.to_nat edges < fuel)%nat →
  ∃ G, DagDeps.random_dag fuel (DagDeps.tape [0; 1]) nodes edges
       = DagDeps.Returns G
       ∧ nx.nodes G = Py.range1 nodes ∧ nx.edges G = [(0, 1)].
Proof.
  intros Hn He Hfuel.
  exists (nx.add_edge 0 1 (DagDeps.graph (DagDeps.initial nodes edges))).
  destruct (one_edge_graph nodes edges Hn) as (Hnodes & Hedges & _).
  split; [|done]. unfold DagDeps.random_dag.
  destruct fuel as [|[|fuel]]; [lia..|].
  change (DagDeps.random_dag_loop (S (S fuel)) ?n ?r ?st)
    with (if decide (0 < DagDeps.edges_left st) then
            match DagDeps.loop_body (S fuel) n r st with
            | DagDeps.Returns st' => DagDeps.random_dag_loop (S fuel) n r st'
            | DagDeps.Raises e => DagDeps.Raises e
            | DagDeps.OutOfFuel => DagDeps.OutOfFuel
            end
          else DagDeps.Returns (DagDeps.graph st)).
  rewrite decide_True by done.
  rewrite (loop_body_0_1 fuel nodes edges _ 0) by auto.
  refine (random_dag_loop_0_1 _ _ _ _ 1 Hn _ _ _); [done..|].
  change (Z.to_nat (edges - 1) < S fuel)%nat. lia.
Qed.

Lemma random_dag_repeated_draw_witness :
  2 ≤ 32 ∧ 0 < 128 ∧ (Z.to_nat 128 < 200)%nat
  ∧ ∃ G, DagDeps.random_dag 200 (DagDeps.tape [0; 1]) 32 128
         = DagDeps.Returns G
         ∧ nx.nodes G = Py.range1 32 ∧ nx.edges G = [(0, 1)].
Proof.
  split; [lia|]. split; [lia|]. split; [lia|].
  apply (random_dag_repeated_draw 200 32 128); lia.
Defined.

(** ** [load_data] outside the documented arguments *)

Lemma range_len_load_data_neg (arg : Z) :
  arg < -1 →
  Py.range_len (4 - arg) (4 - arg + 4 * (arg + 1) ^ 2) (arg + 1) = 0.
Proof.
  intros Harg. unfold Py.range_len.
  destruct (Z.ltb_spec 0 (arg + 1)); [lia|].
  destruct (Z.ltb_spec (arg + 1) 0); [|lia].
  destruct (Z.ltb_spec (4 - arg + 4 * (arg + 1) ^ 2) (4 - arg)); [nia|done].
Qed.

Lemma lookup_progression (start step : Z) (n i : nat) :
  map (λ i : nat, start + Z.of_nat i * step) (seq 0 n) !! i
  = if decide (i < n)%nat then Some (start + Z.of_nat i * step) else None.
Proof.
  change (map ?f ?l) with (f <$> l). rewrite list_lookup_fmap.
  case_decide as Hi.
  - by rewrite lookup_seq_lt.
  - by rewrite lookup_seq_ge by lia.
Qed.

(** X13: a negative argument never yields data: [load_data(-1)] raises
    the [ValueError] of a zero step and binds nothing, and every
    argument below -1 binds [data] to the empty dataset. *)
Theorem load_data_negative (arg : Z) (globals : gmap string (list Z)) :
  arg < 0 →
  RemoteIteration.load_data arg globals
  = if decide (arg = -1) then None
    else Some ("data"%string, <["data"%string := []]> globals).
Proof.
  intros Harg. unfold RemoteIteration.load_data, Py.range.
  case_decide as H1.
  - subst arg. done.
  - destruct (Z.eqb_spec (arg + 1) 0) as [|_]; [lia|].
    rewrite range_len_load_data_neg by lia. done.
Qed.

Lemma load_data_negative_witness :
  -3 < 0 ∧
  RemoteIteration.load_data (-3) ∅
  = if decide (-3 = -1) then None
    else Some ("data"%string, <["data"%string := []]> ∅).
Proof. split; [lia | apply (load_data_negative (-3) ∅); lia]. Defined.

(** X14: for [arg >= 0] the name that [load_data] returns is bound, in
    the namespace it leaves, to the dataset whose item [i] is
    [4 - arg + i*(arg+1)] for [i < 4*(arg+1)] and which has no further
    item. *)
Theorem load_data_contents (arg : Z) (globals : gmap string (list Z)) :
  0 ≤ arg →
  ∃ name globals' data,
    RemoteIteration.load_data arg globals = Some (name, globals')
    ∧ globals' !! name = Some data
    ∧ ∀ i : nat,
        data !! i
        = if decide (Z.of_nat i < 4 * (arg + 1))
          then Some (4 - arg + Z.of_nat i * (arg + 1)) else None.
Proof.
  intros Harg. unfold RemoteIteration.load_data, Py.range.
  destruct (Z.eqb_spec (arg + 1) 0) as [|_]; [lia|].
  eexists _, _, _. split; [reflexivity|]. split.
  - apply lookup_insert_eq.
  - intros i. rewrite lookup_progression, range_len_load_data by done.
    repeat case_decide; done || lia.
Qed.

Lemma load_data_contents_witness :
  0 ≤ 1 ∧
  ∃ name globals' data,
    RemoteIteration.load_data 1 ∅ = Some (name, globals')
    ∧ globals' !! name = Some data
    ∧ ∀ i : nat,
        data !! i
        = if decide (Z.of_nat i < 4 * (1 + 1))
          then Some (4 - 1 + Z.of_nat i * (1 + 1)) else None.
Proof. split; [lia | apply (load_data_contents 1 ∅); lia]. Defined.

(** X15: a call of [load_data] that returns changes no variable of the
    namespace other than the one it names, and what a later call does
    does not depend on it: the later dataset replaces the earlier one. *)
Theorem load_data_namespace (arg : Z) (globals globals' : gmap string (list Z))
    (name : string) :
  RemoteIteration.load_data arg globals = Some (name, globals') →
  (∀ k, k ≠ name → globals' !! k = globals !! k)
  ∧ ∀ arg', RemoteIteration.load_data arg' globals'
            = RemoteIteration.load_data arg' globals.
Proof.
  unfold RemoteIteration.load_data. intros Hload.
  destruct (Py.range _ _ _) as [data|]; [|done].
  simpl in Hload. injection Hload as <- <-. split.
  - intros k Hk. by rewrite lookup_insert_ne.
  - intros arg'. destruct (Py.range _ _ _) as [data'|]; [|done].
    simpl. by rewrite insert_insert_eq.
Qed.

Lemma load_data_namespace_witness :
  RemoteIteration.load_data 0 {["other"%string := [7]]}
  = Some ("data"%string,
          <["data"%string := [4; 5; 6; 7]]> {["other"%string := [7]]})
  ∧ (∀ k, k ≠ "data"%string →
       (<["data"%string := [4; 5; 6; 7]]> {["other"%string := [7]]}
          : gmap string (list Z)) !! k
       = ({["other"%string := [7]]} : gmap string (list Z)) !! k)
  ∧ ∀ arg',
      RemoteIteration.load_data arg'
        (<["data"%string := [4; 5; 6; 7]]> {["other"%string := [7]]})
      = RemoteIteration.load_data arg' {["other"%string := [7]]}.
Proof.
  split; [reflexivity|].
  apply (load_data_namespace 0 {["other"%string := [7]]}). reflexivity.
Defined.

(** ** Catching remote errors *)

(** X16: with [parallel] bound, the guarded cell around [assign_foo]
    ends with [safe and sound] exactly when the remote call returned or
    raised a [NameError], remote or local (an instance of [NameError]
    or of a subclass), whereas the same cell around the bare call lets
    the remote [NameError] through; and whenever the cell around
    [assign_foo] raises, it raises the very error of the remote call. *)
Theorem guarded_assign_foo (repr : RemoteErrors.exc → string)
    (execute : RemoteErrors.result) :
  ((RemoteErrors.guarded repr (RemoteErrors.assign_foo true execute)).2
     = inr tt
   ↔ execute = inr tt ∨ RemoteErrors.remote_name_error execute
     ∨ RemoteErrors.local_name_error execute)
  ∧ ((RemoteErrors.guarded repr execute).2 = inr tt
     ↔ execute = inr tt ∨ RemoteErrors.local_name_error execute)
  ∧ ∀ e, (RemoteErrors.guarded repr
            (RemoteErrors.assign_foo true execute)).2 = inl e →
         execute = inl e.
Proof.
  unfold RemoteErrors.remote_name_error, RemoteErrors.local_name_error.
  destruct execute as [[cls msg|ename evalue tb|cls msg|cls]|[]]; simpl.
  - split; [|split]; [split; eauto|split; eauto|done].
  - case_decide as Hn; simpl.
    + subst ename. split; [|split]; [split; eauto| |done].
      split; [done|]. intros [|(? & ? & ?)]; done.
    + split; [|split].
      * split; [done|]. intros [|[(? & ? & ?)|(? & ? & ?)]]; congruence.
      * split; [done|]. intros [|(? & ? & ?)]; done.
      * congruence.
  - split; [|split].
    + split; [done|]. intros [|[(? & ? & ?)|(? & ? & ?)]]; done.
    + split; [done|]. intros [|(? & ? & ?)]; done.
    + congruence.
  - split; [|split].
    + split; [done|]. intros [|[(? & ? & ?)|(? & ? & ?)]]; done.
    + split; [done|]. intros [|(? & ? & ?)]; done.
    + congruence.
  - split; [|split]; [split; eauto|split; eauto|done].
Qed.

(** What the guarded cell prints with [parallel] bound, in each of the
    cases: a local [UnboundLocalError] is caught as a [NameError], a
    remote [NameError] is caught once [assign_foo] has recast it, and a
    remote [ZeroDivisionError] is reported and raised again. *)
Example guarded_cases (repr : RemoteErrors.exc → string) :
  let unbound := RemoteErrors.NameError "UnboundLocalError" "x" in
  let remote := RemoteErrors.RemoteError "NameError" "barbarbar" [] in
  let other := RemoteErrors.RemoteError "ZeroDivisionError" "1/0" [] in
  RemoteErrors.guarded repr (inl unbound)
  = ([RemoteErrors.caught; RemoteErrors.safe], inr tt)
  ∧ RemoteErrors.guarded repr (inl remote)
    = ([RemoteErrors.oops repr remote], inl remote)
  ∧ RemoteErrors.guarded repr (RemoteErrors.assign_foo true (inl remote))
    = ([RemoteErrors.caught; RemoteErrors.safe], inr tt)
  ∧ RemoteErrors.guarded repr (RemoteErrors.assign_foo true (inl other))
    = ([RemoteErrors.oops repr other], inl other).
Proof. repeat split. Qed.

(** X17: with [parallel] unbound, as the notebook leaves it, every
    error of the remote call, whatever its class, leaves [assign_foo] as
    the [NameError] of the unbound name, so the guarded cell around it
    never raises and always ends with [safe and sound]: it prints
    [caught NameError] first exactly when the remote call raised. *)
Theorem assign_foo_parallel_unbound (repr : RemoteErrors.exc → string)
    (execute : RemoteErrors.result) :
  (∀ e, execute = inl e →
        RemoteErrors.assign_foo false execute
        = inl RemoteErrors.parallel_undefined)
  ∧ RemoteErrors.guarded repr (RemoteErrors.assign_foo false execute)
    = (match execute with
       | inr _ => [RemoteErrors.safe]
       | inl _ => [RemoteErrors.caught; RemoteErrors.safe]
       end, inr tt).
Proof. destruct execute as [e|[]]; simpl; split; done. Qed.
